(** * The Lox playground: the run pipeline of [LoxPlayground]

    A shallow embedding of the React component [LoxPlayground]
    (src/unnamed/part_000), of the editor wrapper [LoxEditor]
    (src/unnamed/part_001) and of the syntax descriptor [registerLox]
    (src/lox-wasm/www/src/loxLanguageConfig.ts).

    The component owns two pieces of React state, [messages] and [code].
    Its handlers are embedded as state transformers in a small state monad
    over a [World] that records what the handlers do to the host: how many
    identifiers and dates they have drawn, how often the runtime was
    invoked, and what was written to the console.  A handler belongs to a
    render and reads the state of that render; what it sets is seen by the
    next render. *)

From Stdlib Require Import String Ascii List ZArith Arith Lia Bool FinFun Sorted.
Import ListNotations.
Open Scope string_scope.
Open Scope list_scope.

(** ** JavaScript values

    [catch (exception: unknown)] receives an arbitrary JavaScript value.
    The handler observes three things of it: whether it is an instance of
    [Error], its [typeof] tag, and, for an [Error], its [message].  An
    object that is no instance of [Error] may have a [message] field of its
    own ([JsObjectWithMessage]) or none ([JsObject]). *)

Inductive JsValue : Type :=
| JsUndefined
| JsNull
| JsBoolean (b : bool)
| JsNumber (n : Z)
| JsBigInt (n : Z)
| JsString (s : string)
| JsSymbol
| JsFunction
| JsErrorObject (message : string)
| JsObjectWithMessage (message : string)
| JsObject.

Definition typeof (v : JsValue) : string :=
  match v with
  | JsUndefined => "undefined"
  | JsNull => "object"
  | JsBoolean _ => "boolean"
  | JsNumber _ => "number"
  | JsBigInt _ => "bigint"
  | JsString _ => "string"
  | JsSymbol => "symbol"
  | JsFunction => "function"
  | JsErrorObject _ => "object"
  | JsObjectWithMessage _ => "object"
  | JsObject => "object"
  end.

(** The [message] field of a value that has one. *)
Definition messageField (v : JsValue) : option string :=
  match v with
  | JsErrorObject message | JsObjectWithMessage message => Some message
  | _ => None
  end.

(** [exception instanceof Error], with the [message] the instance carries. *)
Definition instanceofError (v : JsValue) : option string :=
  match v with
  | JsErrorObject message => Some message
  | _ => None
  end.

(** [typeof exception === "string"], with the narrowed value. *)
Definition asString (v : JsValue) : option string :=
  if String.eqb (typeof v) "string"
  then match v with JsString s => Some s | _ => None end
  else None.

(** ** Messages *)

Inductive MessageType : Type := Print | Error.

Definition MessageType_eqb (a b : MessageType) : bool :=
  match a, b with
  | Print, Print | Error, Error => true
  | _, _ => false
  end.

(** [type Message = {id: string, type: MessageType, text?: string,
    occurredAt: Date}]; a [Date] is its number of milliseconds since the
    epoch, an optional field is an [option]. *)
Record Message : Type := mkMessage {
  id : string;
  type : MessageType;
  text : option string;
  occurredAt : Z
}.

(** ** The runtime boundary

    [wasm.run(code, onPrint)] calls [onPrint] some number of times and then
    either returns or throws.  One invocation is the sequence of what it
    does to its caller; the callback's result is not handed back to it
    ([callback(text) -> void]).  An invocation that never ends starts no
    [catch] clause and no [setMessages], and has no value of this type. *)

Inductive Runtime : Type :=
| Returns
| Throws (exception : JsValue)
| CallsPrint (message : string) (rest : Runtime).

Fixpoint printCalls (r : Runtime) : list string :=
  match r with
  | Returns | Throws _ => []
  | CallsPrint message rest => message :: printCalls rest
  end.

Fixpoint thrown (r : Runtime) : option JsValue :=
  match r with
  | Returns => None
  | Throws exception => Some exception
  | CallsPrint _ rest => thrown rest
  end.

(** ** The example catalog ([examples.json]) *)

Record Example : Type := mkExample {
  name : string;
  code_of : string
}.

(** ** Component state and host state *)

Record State : Type := mkState {
  messages : list Message;
  code : string
}.

Inductive ConsoleEntry : Type :=
| ConsoleError (v : JsValue)
| ConsoleLog (s : string).

Record World : Type := mkWorld {
  uuids : nat;
  dates : nat;
  runs : nat;
  console : list ConsoleEntry
}.

Definition world0 : World :=
  {| uuids := 0; dates := 0; runs := 0; console := [] |}.

(** ** A state monad over the host *)

Definition M (A : Type) : Type := World -> A * World.

Definition ret {A : Type} (a : A) : M A := fun w => (a, w).

Definition bind {A B : Type} (m : M A) (f : A -> M B) : M B :=
  fun w => let (a, w') := m w in f a w'.

Declare Scope host_scope.
Delimit Scope host_scope with host.
Notation "x <- m ;; k" := (bind m (fun x => k))
  (at level 61, m at next level, right associativity) : host_scope.
Notation "m ;;; k" := (bind m (fun _ => k))
  (at level 61, right associativity) : host_scope.
Open Scope host_scope.

(** What happens to the component: the events the page delivers to its
    handlers, and React rendering it again. *)
Inductive Event : Type :=
| ClickRun
| SelectChange (value : string)
| EditorChange (value : option string)
| Rerender.

(** ** The syntax descriptor ([registerLox], loxLanguageConfig.ts)

    The Monarch rules are regular expressions.  A line of text is a
    sequence of UTF-16 code units, and a regular expression is matched the
    way JavaScript matches it: by backtracking, alternatives from left to
    right, greedy quantifiers longest first and lazy ones shortest first. *)

Definition units (s : string) : list N :=
  map N_of_ascii (list_ascii_of_string s).

Definition codeUnit (a : ascii) : N := N_of_ascii a.

Definition inRange (lo hi c : N) : bool := (lo <=? c)%N && (c <=? hi)%N.

(** [\d] *)
Definition isDigit (c : N) : bool := inRange (codeUnit "0") (codeUnit "9") c.

(** [\w], and the test behind [\b] *)
Definition isWordChar (c : N) : bool :=
  inRange (codeUnit "a") (codeUnit "z") c || inRange (codeUnit "A") (codeUnit "Z") c
  || inRange (codeUnit "0") (codeUnit "9") c || (c =? codeUnit "_")%N.

(** [.]: anything but a line terminator (LF, CR, U+2028, U+2029). *)
Definition isLineTerminator (c : N) : bool :=
  (c =? 10)%N || (c =? 13)%N || (c =? 8232)%N || (c =? 8233)%N.

Definition isDot (c : N) : bool := negb (isLineTerminator c).

Inductive Regex : Type :=
| Epsilon
| Class (p : N -> bool)
| Seq (r1 r2 : Regex)
| Alt (r1 r2 : Regex)
| Opt (r : Regex)
| Star (r : Regex)
| LazyStar (r : Regex)
| WordBoundary
| EndOfInput.

(** [r+] *)
Definition Plus (r : Regex) : Regex := Seq r (Star r).

(** One given character. *)
Definition chr (a : ascii) : Regex := Class (N.eqb (codeUnit a)).

(** A run of given characters. *)
Fixpoint lit (s : string) : Regex :=
  match s with
  | EmptyString => Epsilon
  | String a s' => Seq (chr a) (lit s')
  end.

(** [s1|s2|...|sn] *)
Fixpoint oneOf (first : string) (others : list string) : Regex :=
  match others with
  | [] => lit first
  | next :: others' => Alt (lit first) (oneOf next others')
  end.

(** Where the matcher stands: the code codeUnit before it, how many code units
    it has matched, and the code units ahead. *)
Record Cursor : Type := mkCursor {
  before : option N;
  consumed : nat;
  ahead : list N
}.

Definition advance (c : N) (cur : Cursor) (tail : list N) : Cursor :=
  {| before := Some c; consumed := S (consumed cur); ahead := tail |}.

Definition progressed (from to : Cursor) : bool :=
  Nat.ltb (consumed from) (consumed to).

Definition wordBefore (cur : Cursor) : bool :=
  match before cur with
  | Some c => isWordChar c
  | None => false
  end.

Definition wordAhead (cur : Cursor) : bool :=
  match ahead cur with
  | c :: _ => isWordChar c
  | [] => false
  end.

(** The cursor after the code units [xs] have been matched one by one,
    with [tail] left ahead. *)
Fixpoint advanceOver (cur : Cursor) (xs tail : list N) : Cursor :=
  match xs with
  | [] => {| before := before cur; consumed := consumed cur; ahead := tail |}
  | c :: xs' => advanceOver (advance c cur (xs' ++ tail)) xs' tail
  end.

(** A greedy repetition: one more round of [body] that makes progress is
    tried before leaving the loop. *)
Fixpoint greedyLoop (body : Cursor -> (Cursor -> option Cursor) -> option Cursor)
    (fuel : nat) (cur : Cursor) (k : Cursor -> option Cursor) : option Cursor :=
  match fuel with
  | O => k cur
  | S fuel' =>
      match body cur (fun cur' =>
                        if progressed cur cur'
                        then greedyLoop body fuel' cur' k
                        else None) with
      | Some res => Some res
      | None => k cur
      end
  end.

(** A lazy repetition: leaving the loop is tried before one more round. *)
Fixpoint lazyLoop (body : Cursor -> (Cursor -> option Cursor) -> option Cursor)
    (fuel : nat) (cur : Cursor) (k : Cursor -> option Cursor) : option Cursor :=
  match fuel with
  | O => k cur
  | S fuel' =>
      match k cur with
      | Some res => Some res
      | None =>
          body cur (fun cur' =>
                      if progressed cur cur'
                      then lazyLoop body fuel' cur' k
                      else None)
      end
  end.

(** Matching [r] at [cur] and then going on with [k]; a round of a
    quantifier that matches nothing is not taken.  A repetition is given
    as many rounds as there are code units ahead, and every round it takes
    uses up one of them at least. *)
Fixpoint matchK (r : Regex) (cur : Cursor) (k : Cursor -> option Cursor)
  : option Cursor :=
  match r with
  | Epsilon => k cur
  | Class p =>
      match ahead cur with
      | c :: tail => if p c then k (advance c cur tail) else None
      | [] => None
      end
  | Seq r1 r2 => matchK r1 cur (fun cur' => matchK r2 cur' k)
  | Alt r1 r2 =>
      match matchK r1 cur k with
      | Some res => Some res
      | None => matchK r2 cur k
      end
  | Opt r1 =>
      match matchK r1 cur (fun cur' => if progressed cur cur' then k cur' else None) with
      | Some res => Some res
      | None => k cur
      end
  | Star r1 => greedyLoop (matchK r1) (length (ahead cur)) cur k
  | LazyStar r1 => lazyLoop (matchK r1) (length (ahead cur)) cur k
  | WordBoundary => if xorb (wordBefore cur) (wordAhead cur) then k cur else None
  | EndOfInput =>
      match ahead cur with
      | [] => k cur
      | _ :: _ => None
      end
  end.

(** The length of the match of [r] that starts right after [prev], with
    [input] ahead. *)
Definition matchAt (r : Regex) (prev : option N) (input : list N) : option nat :=
  option_map consumed
    (matchK r {| before := prev; consumed := 0; ahead := input |} Some).

(** Whether [r] can match without taking a code codeUnit, read off its shape. *)
Fixpoint nullable (r : Regex) : bool :=
  match r with
  | Class _ => false
  | Seq r1 r2 => nullable r1 && nullable r2
  | Alt r1 r2 => nullable r1 || nullable r2
  | Epsilon | Opt _ | Star _ | LazyStar _ | WordBoundary | EndOfInput => true
  end.

(** The keywords of the first rule, in the order they are written. *)
Definition keywords : list string :=
  ["and"; "class"; "else"; "false"; "for"; "fun"; "if"; "nil"; "or"; "print";
   "return"; "super"; "this"; "true"; "var"; "while"].

(** [[+\-*\/=!<>]] *)
Definition isOperatorChar (c : N) : bool :=
  existsb (N.eqb c) (units "+-*/=!<>").

(** [[a-zA-Z_]] *)
Definition isIdentifierStart (c : N) : bool :=
  inRange (codeUnit "a") (codeUnit "z") c || inRange (codeUnit "A") (codeUnit "Z") c
  || (c =? codeUnit "_")%N.

(** [[{}()]] *)
Definition isDelimiterChar (c : N) : bool :=
  existsb (N.eqb c) (units "{}()").

(** [/\b(and|class|...|while)\b/] *)
Definition keywordRegex : Regex :=
  Seq WordBoundary
    (Seq (oneOf "and" ["class"; "else"; "false"; "for"; "fun"; "if"; "nil"; "or";
                       "print"; "return"; "super"; "this"; "true"; "var"; "while"])
         WordBoundary).

(** The double quote, U+0022. *)
Definition doubleQuote : ascii := ascii_of_nat 34.

(** [/".*?"/] *)
Definition stringRegex : Regex :=
  Seq (chr doubleQuote) (Seq (LazyStar (Class isDot)) (chr doubleQuote)).

(** [/\d+(\.\d+)?/] *)
Definition numberRegex : Regex :=
  Seq (Plus (Class isDigit)) (Opt (Seq (chr ".") (Plus (Class isDigit)))).

(** [/\/\/.*$/] *)
Definition commentRegex : Regex :=
  Seq (chr "/") (Seq (chr "/") (Seq (Star (Class isDot)) EndOfInput)).

(** [/[+\-*\/=!<>]=?|and|or/] *)
Definition operatorRegex : Regex :=
  Alt (Seq (Class isOperatorChar) (Opt (chr "="))) (Alt (lit "and") (lit "or")).

(** [/[a-zA-Z_]\w*/] *)
Definition identifierRegex : Regex :=
  Seq (Class isIdentifierStart) (Star (Class isWordChar)).

(** [/[{}()]/] *)
Definition delimiterRegex : Regex := Class isDelimiterChar.

(** [tokenizer.root] (lines 6-14). *)
Definition root : list (Regex * string) :=
  [ (keywordRegex, "keyword");
    (stringRegex, "string");
    (numberRegex, "number");
    (commentRegex, "comment");
    (operatorRegex, "operator");
    (identifierRegex, "identifier");
    (delimiterRegex, "delimiter") ].

(** Monarch tries the rules of a state in the order they are written and
    takes the first whose expression matches where it stands; here at the
    start of a line.  The answer is the token class and the length of the
    match, or nothing when no rule matches. *)
Fixpoint firstMatch (rules : list (Regex * string)) (input : list N)
  : option (string * nat) :=
  match rules with
  | [] => None
  | (r, token) :: rules' =>
      match matchAt r None input with
      | Some n => Some (token, n)
      | None => firstMatch rules' input
      end
  end.

Definition tokenAtLineStart (line : list N) : option (string * nat) :=
  firstMatch root line.

(** The language configuration (lines 18-31). *)
Record LanguageConfiguration : Type := mkLanguageConfiguration {
  lineComment : string;
  brackets : list (string * string);
  autoClosingPairs : list (string * string)
}.

Definition loxConfiguration : LanguageConfiguration :=
  {| lineComment := "//";
     brackets := [("{", "}"); ("(", ")")];
     autoClosingPairs :=
       [("{", "}"); ("(", ")");
        (String doubleQuote EmptyString, String doubleQuote EmptyString)] |}.

(** ** Concrete hosts

    Closed instances of the host's oracles and of the catalog, on which the
    handlers can be evaluated. *)

(** An identifier source that never repeats: the [n]-th identifier is the
    letter [u] written [n] times. *)
Fixpoint unaryUUID (n : nat) : string :=
  match n with
  | O => EmptyString
  | S k => String "u"%char (unaryUUID k)
  end.

(** An identifier source that always answers the same identifier. *)
Definition constantUUID (_ : nat) : string := "00000000-0000-4000-8000-000000000000".

Definition epochClock (n : nat) : Z := Z.of_nat n.

(** A runtime that prints [a] and [b] and returns. *)
Definition printsTwice (_ : nat) (_ : string) : Runtime :=
  CallsPrint "a" (CallsPrint "b" Returns).

(** A runtime that prints [a] and then throws the number 42. *)
Definition throwsNumber (_ : nat) (_ : string) : Runtime :=
  CallsPrint "a" (Throws (JsNumber 42)).

(** A runtime that prints [a] and then throws an [Error]. *)
Definition throwsError (_ : nat) (_ : string) : Runtime :=
  CallsPrint "a" (Throws (JsErrorObject "Undefined variable 'x'.")).

(** A runtime that prints [a] and then throws an object that has a
    [message] field and is no [Error]. *)
Definition throwsMessageObject (_ : nat) (_ : string) : Runtime :=
  CallsPrint "a" (Throws (JsObjectWithMessage "Undefined variable 'x'.")).

(** A runtime that throws a bare string. *)
Definition throwsString (_ : nat) (_ : string) : Runtime :=
  Throws (JsString "stack overflow").

Definition demoExamples : list Example :=
  [ {| name := "Hello"; code_of := "print 1;" |};
    {| name := "Fibonacci"; code_of := "fun fib(n) { return n; }" |} ].

(** The component as mounted on [demoExamples]. *)
Definition demoState : State :=
  {| messages := []; code := "print 1;" |}.

Section Playground.

(** The host, as the component sees it: the [n]-th answer of
    [crypto.randomUUID()], the [n]-th answer of [new Date()], what the
    [n]-th invocation of [wasm.run] does on a source text, and the imported
    catalog. *)
Variable randomUUID : nat -> string.
Variable now : nat -> Z.
Variable wasm_run : nat -> string -> Runtime.
Variable examples : list Example.

Definition crypto_randomUUID : M string :=
  fun w => (randomUUID (uuids w),
            {| uuids := S (uuids w); dates := dates w;
               runs := runs w; console := console w |}).

Definition new_Date : M Z :=
  fun w => (now (dates w),
            {| uuids := uuids w; dates := S (dates w);
               runs := runs w; console := console w |}).

Definition console_error (v : JsValue) : M unit :=
  fun w => (tt,
            {| uuids := uuids w; dates := dates w; runs := runs w;
               console := console w ++ [ConsoleError v] |}).

Definition console_log (s : string) : M unit :=
  fun w => (tt,
            {| uuids := uuids w; dates := dates w; runs := runs w;
               console := console w ++ [ConsoleLog s] |}).

(** [emittedMessages.push(m)] *)
Definition push (emittedMessages : list Message) (m : Message) : list Message :=
  emittedMessages ++ [m].

(** [{id: crypto.randomUUID(), type: t, text: s, occurredAt: new Date()}]:
    the property values are evaluated in the order they are written. *)
Definition newMessage (t : MessageType) (s : string) : M Message :=
  i <- crypto_randomUUID ;;
  d <- new_Date ;;
  ret {| id := i; type := t; text := Some s; occurredAt := d |}.

(** The callback handed to [wasm.run] (lines 40-41). *)
Definition onPrint (emittedMessages : list Message) (message : string)
  : M (list Message) :=
  m <- newMessage Print message ;;
  ret (push emittedMessages m).

(** Running one invocation of the runtime against the callback: the buffer
    when the invocation ends, and what it threw, if anything. *)
Fixpoint invoke (r : Runtime) (emittedMessages : list Message)
  : M (list Message * option JsValue) :=
  match r with
  | Returns => ret (emittedMessages, None)
  | Throws exception => ret (emittedMessages, Some exception)
  | CallsPrint message rest =>
      emittedMessages' <- onPrint emittedMessages message ;;
      invoke rest emittedMessages'
  end.

(** [wasm.run(code, onPrint)] *)
Definition wasm_run_call (source : string) (emittedMessages : list Message)
  : M (list Message * option JsValue) :=
  fun w =>
    invoke (wasm_run (runs w) source) emittedMessages
      {| uuids := uuids w; dates := dates w;
         runs := S (runs w); console := console w |}.

(** The [catch] clause (lines 43-52). *)
Definition catchClause (exception : JsValue) (emittedMessages : list Message)
  : M (list Message) :=
  console_error exception ;;;
  match instanceofError exception with
  | Some message =>
      m <- newMessage Error message ;;
      ret (push emittedMessages m)
  | None =>
      match asString exception with
      | Some s =>
          m <- newMessage Error s ;;
          ret (push emittedMessages m)
      | None =>
          console_log (typeof exception) ;;;
          ret emittedMessages
      end
  end.

(** Lines 38-52 of [runCode]: the buffer of one run. *)
Definition runBuffer (st : State) : M (list Message) :=
  let emittedMessages := [] in
  r <- wasm_run_call (code st) emittedMessages ;;
  match snd r with
  | None => ret (fst r)
  | Some exception => catchClause exception (fst r)
  end.

Definition setMessages (ms : list Message) (st : State) : State :=
  {| messages := ms; code := code st |}.

Definition setCode (c : string) (st : State) : State :=
  {| messages := messages st; code := c |}.

(** [runCode] (lines 37-55). *)
Definition runCode (st : State) : M State :=
  emittedMessages <- runBuffer st ;;
  ret (setMessages (messages st ++ emittedMessages) st).

(** [examples.find((example) => example.name === value)] *)
Definition findExample (value : string) : option Example :=
  find (fun example => String.eqb (name example) value) examples.

(** The selector's [onChange] (line 61):
    [setCode(examples.find(...)?.code ?? "")]. *)
Definition onSelectChange (value : string) (st : State) : State :=
  setCode (match findExample value with
           | Some example => code_of example
           | None => ""
           end) st.

(** The editor's [onChange] (line 71): [setCode(newCode ?? "")]. *)
Definition onEditorChange (newCode : option string) (st : State) : State :=
  setCode (match newCode with Some c => c | None => "" end) st.

(** [LoxEditor] hands the [onChange] it is given to the widget unchanged
    (part_001, line 22): what the widget delivers is what the parent's
    handler receives. *)
Definition LoxEditor_onChange (onChange : option string -> State -> State)
  (delivered : option string) : State -> State :=
  onChange delivered.

(** The two [useState] initialisers (lines 34-35).  [examples[0].code]
    throws on an empty catalog. *)
Definition mount : option State :=
  match examples with
  | [] => None
  | first :: _ => Some {| messages := []; code := code_of first |}
  end.

(** One event on a component that has just rendered [st]: the state React
    holds once the handler has run. *)
Definition step (ev : Event) (st : State) : M State :=
  match ev with
  | ClickRun => runCode st
  | SelectChange value => ret (onSelectChange value st)
  | EditorChange value => ret (LoxEditor_onChange onEditorChange value st)
  | Rerender => ret st
  end.

(** ** The component between renders

    [runCode] is created by a render and closes over the [messages] and
    the [code] of that render (lines 34-37); [setMessages] and [setCode]
    are given values, not updater functions (lines 54, 61, 71), so what a
    handler sets replaces what React holds for that piece of state.  A
    component is the state its latest render saw, which its handlers read
    and its view shows, and the state React holds for the next render. *)
Record Component : Type := mkComponent {
  rendered : State;
  held : State
}.

(** A component that has just rendered [st]. *)
Definition fresh (st : State) : Component :=
  {| rendered := st; held := st |}.

(** One event on a component.  A click on Run runs the runtime on the
    rendered [code] and sets the log to the rendered [messages] followed by
    the buffer (line 54); a selection and an edit set the source text; a
    re-render makes what React holds the rendered state. *)
Definition dispatch (ev : Event) (c : Component) : M Component :=
  match ev with
  | ClickRun =>
      emittedMessages <- runBuffer (rendered c) ;;
      ret {| rendered := rendered c;
             held := setMessages (messages (rendered c) ++ emittedMessages)
                       (held c) |}
  | SelectChange value =>
      ret {| rendered := rendered c; held := onSelectChange value (held c) |}
  | EditorChange value =>
      ret {| rendered := rendered c;
             held := LoxEditor_onChange onEditorChange value (held c) |}
  | Rerender => ret (fresh (held c))
  end.

Fixpoint play (evs : list Event) (c : Component) : M Component :=
  match evs with
  | [] => ret c
  | ev :: evs' => c' <- dispatch ev c ;; play evs' c'
  end.

(** A session: the events [evs], in order, on a component that has just
    rendered [st]; the answer is the state React holds at the end.  React
    renders again where the session says so and nowhere else. *)
Definition session (evs : list Event) (st : State) : M State :=
  c <- play evs (fresh st) ;;
  ret (held c).

(** ** Observations on a buffer *)

Definition countType (t : MessageType) (ms : list Message) : nat :=
  length (filter (fun m => MessageType_eqb (type m) t) ms).

(** The messages the callback builds for the calls [ps] when [u]
    identifiers and [d] dates have been drawn before the first of them. *)
Fixpoint printMessages (u d : nat) (ps : list string) : list Message :=
  match ps with
  | [] => []
  | s :: ps' =>
      {| id := randomUUID u; type := Print; text := Some s; occurredAt := now d |}
        :: printMessages (S u) (S d) ps'
  end.

(** The host after [n] more messages were built. *)
Definition drawn (n : nat) (w : World) : World :=
  {| uuids := uuids w + n; dates := dates w + n;
     runs := runs w; console := console w |}.

(** The host once [wasm.run] has been entered. *)
Definition entered (w : World) : World :=
  {| uuids := uuids w; dates := dates w;
     runs := S (runs w); console := console w |}.

(** The text the [catch] clause can report for a thrown value: the
    [message] of an [Error], the value itself when it is a string, and
    nothing otherwise. *)
Definition errorText (exception : JsValue) : option string :=
  match instanceofError exception with
  | Some message => Some message
  | None => asString exception
  end.

Definition isError (m : Message) : bool := MessageType_eqb (type m) Error.

(** The buffer of a run and the host it leaves. *)
Definition bufferOf (st : State) (w : World) : list Message := fst (runBuffer st w).
Definition hostAfter (st : State) (w : World) : World := snd (runBuffer st w).

Definition isClickRun (ev : Event) : bool :=
  match ev with
  | ClickRun => true
  | _ => false
  end.



(** The fields [proj] of the messages [ms] are answers of the source [f]
    to calls among its first [n], taken in the order of the calls. *)
Definition drawnInOrder {A : Type} (f : nat -> A) (proj : Message -> A)
    (n : nat) (ms : list Message) : Prop :=
  exists calls,
    map proj ms = map f calls /\
    StronglySorted lt calls /\
    Forall (fun k => (k < n)%nat) calls.

(** ** The view (lines 57-84)

    What the component hands to React: the options of the selector and one
    row per message of the log. *)

Record OptionElement : Type := mkOptionElement {
  optionKey : string;
  optionValue : string;
  optionLabel : string
}.

(** [<option key={example.name} value={example.name}>{example.name}</option>] *)
Definition renderOption (example : Example) : OptionElement :=
  {| optionKey := name example;
     optionValue := name example;
     optionLabel := name example |}.

(** [examples.map((example) => ...)] (lines 62-64). *)
Definition renderOptions : list OptionElement := map renderOption examples.

(** [defaultValue={examples[0].name}] (line 61); it throws on an empty
    catalog. *)
Definition defaultValue : option string :=
  match examples with
  | [] => None
  | first :: _ => Some (name first)
  end.

Record SpanElement : Type := mkSpanElement {
  key : string;
  className : string;
  children : option string
}.

(** [<span key={message.id} className={"block" + (message.type ===
    MessageType.Error ? " text-red-500" : "")}>{message.text}</span>]
    (line 78). *)
Definition renderMessage (message : Message) : SpanElement :=
  {| key := id message;
     className :=
       String.append "block"
         (if MessageType_eqb (type message) Error then " text-red-500" else "");
     children := text message |}.

(** [messages.map((message) => ...)] (lines 77-79). *)
Definition renderMessages (st : State) : list SpanElement :=
  map renderMessage (messages st).

Definition isRed (row : SpanElement) : bool :=
  String.eqb (className row) "block text-red-500".

(** * Properties *)

(** ** The callback and the invocation *)

Lemma printMessages_length u d ps :
  length (printMessages u d ps) = length ps.
Proof.
  revert u d; induction ps as [|s ps IH]; intros u d; simpl; [reflexivity|].
  now rewrite IH.
Qed.

Lemma printMessages_type u d ps :
  Forall (fun m => type m = Print) (printMessages u d ps).
Proof.
  revert u d; induction ps as [|s ps IH]; intros u d; simpl; constructor.
  - reflexivity.
  - apply IH.
Qed.

Lemma printMessages_text u d ps :
  map text (printMessages u d ps) = map Some ps.
Proof.
  revert u d; induction ps as [|s ps IH]; intros u d; simpl; [reflexivity|].
  now rewrite IH.
Qed.

Lemma printMessages_id u d ps :
  map id (printMessages u d ps) = map randomUUID (seq u (length ps)).
Proof.
  revert u d; induction ps as [|s ps IH]; intros u d; simpl; [reflexivity|].
  now rewrite IH.
Qed.

Lemma drawn_0 w : drawn 0 w = w.
Proof.
  destruct w as [u d r c]; unfold drawn; simpl.
  now rewrite !Nat.add_0_r.
Qed.

Lemma invoke_spec r : forall buf w,
  invoke r buf w =
  ((buf ++ printMessages (uuids w) (dates w) (printCalls r), thrown r),
   drawn (length (printCalls r)) w).
Proof.
  induction r as [|e|s r IH]; intros buf w; simpl.
  - unfold ret. now rewrite app_nil_r, drawn_0.
  - unfold ret. now rewrite app_nil_r, drawn_0.
  - unfold bind at 1. unfold onPrint, newMessage, bind, ret, push,
      crypto_randomUUID, new_Date; simpl.
    rewrite IH; simpl. rewrite <- app_assoc; simpl.
    unfold drawn; simpl. now rewrite !Nat.add_succ_r.
Qed.

(** ** The three ways a run ends *)

Lemma runBuffer_returns st w :
  thrown (wasm_run (runs w) (code st)) = None ->
  runBuffer st w =
  (printMessages (uuids w) (dates w) (printCalls (wasm_run (runs w) (code st))),
   drawn (length (printCalls (wasm_run (runs w) (code st)))) (entered w)).
Proof.
  intros Hret. unfold runBuffer, bind, wasm_run_call.
  rewrite invoke_spec; simpl. now rewrite Hret.
Qed.

Lemma runBuffer_reported st w e s :
  thrown (wasm_run (runs w) (code st)) = Some e ->
  errorText e = Some s ->
  let n := length (printCalls (wasm_run (runs w) (code st))) in
  runBuffer st w =
  (printMessages (uuids w) (dates w) (printCalls (wasm_run (runs w) (code st)))
     ++ [ {| id := randomUUID (uuids w + n); type := Error;
             text := Some s; occurredAt := now (dates w + n) |} ],
   {| uuids := S (uuids w + n); dates := S (dates w + n);
      runs := S (runs w); console := console w ++ [ConsoleError e] |}).
Proof.
  intros Hthrow Htext n. unfold runBuffer, bind, wasm_run_call.
  rewrite invoke_spec; simpl. rewrite Hthrow.
  unfold errorText in Htext. unfold catchClause, bind, console_error.
  destruct (instanceofError e) as [msg|] eqn:Hinst.
  - injection Htext as <-. reflexivity.
  - rewrite Htext. reflexivity.
Qed.

Lemma runBuffer_opaque st w e :
  thrown (wasm_run (runs w) (code st)) = Some e ->
  errorText e = None ->
  let n := length (printCalls (wasm_run (runs w) (code st))) in
  runBuffer st w =
  (printMessages (uuids w) (dates w) (printCalls (wasm_run (runs w) (code st))),
   {| uuids := uuids w + n; dates := dates w + n; runs := S (runs w);
      console := console w ++ [ConsoleError e; ConsoleLog (typeof e)] |}).
Proof.
  intros Hthrow Htext n. unfold runBuffer, bind, wasm_run_call.
  rewrite invoke_spec; simpl. rewrite Hthrow.
  unfold errorText in Htext. unfold catchClause, bind, console_error, console_log.
  destruct (instanceofError e) as [msg|] eqn:Hinst; [discriminate|].
  rewrite Htext. simpl. unfold ret. rewrite <- app_assoc. reflexivity.
Qed.

Lemma bufferOf_returns st w :
  thrown (wasm_run (runs w) (code st)) = None ->
  bufferOf st w =
  printMessages (uuids w) (dates w) (printCalls (wasm_run (runs w) (code st))).
Proof.
  intros Hret. unfold bufferOf. now rewrite (runBuffer_returns _ _ Hret).
Qed.

Lemma countType_app t xs ys :
  countType t (xs ++ ys) = countType t xs + countType t ys.
Proof.
  unfold countType. now rewrite filter_app, length_app.
Qed.

Lemma filter_isError_prints ms :
  Forall (fun m => type m = Print) ms -> filter isError ms = [].
Proof.
  induction 1 as [|m ms Hm _ IH]; simpl; [reflexivity|].
  unfold isError at 1. now rewrite Hm.
Qed.

Lemma countType_Error_prints ms :
  Forall (fun m => type m = Print) ms -> countType Error ms = 0.
Proof.
  intros H. unfold countType.
  change (fun m => MessageType_eqb (type m) Error) with isError.
  now rewrite filter_isError_prints.
Qed.

Lemma errorText_cases e s :
  e = JsErrorObject s \/ e = JsString s -> errorText e = Some s.
Proof.
  intros [-> | ->]; reflexivity.
Qed.

(** ** Runs that end without a failure *)

(** C3. When the runtime raises no failure, the buffer of the run holds no
    [Error] message: every message is a [Print], and their texts are the
    texts the runtime passed to the callback, one message per call, in the
    order of the calls. *)
Theorem C3_success_buffer_is_the_prints (st : State) (w : World) :
  thrown (wasm_run (runs w) (code st)) = None ->
  countType Error (bufferOf st w) = 0 /\
  Forall (fun m => type m = Print) (bufferOf st w) /\
  map text (bufferOf st w) = map Some (printCalls (wasm_run (runs w) (code st))).
Proof.
  intros Hret. rewrite (bufferOf_returns _ _ Hret).
  split; [|split].
  - apply countType_Error_prints, printMessages_type.
  - apply printMessages_type.
  - apply printMessages_text.
Qed.

(** ** Runs that end with a failure *)

(** C7. When the runtime throws an [Error] instance, the buffer holds one
    [Error] message and its text is the instance's [message]; when it
    throws a string, the buffer holds one [Error] message and its text is
    that string. *)
Theorem C7_error_text_is_verbatim (st : State) (w : World) (e : JsValue) (s : string) :
  thrown (wasm_run (runs w) (code st)) = Some e ->
  e = JsErrorObject s \/ e = JsString s ->
  exists m, filter isError (bufferOf st w) = [m] /\ text m = Some s.
Proof.
  intros Hthrow Hshape. apply errorText_cases in Hshape.
  unfold bufferOf. rewrite (runBuffer_reported _ _ _ _ Hthrow Hshape); simpl.
  rewrite filter_app, filter_isError_prints by apply printMessages_type.
  simpl. eexists; split; reflexivity.
Qed.

(** C1, as the code has it. When the runtime throws a value that is neither
    an [Error] instance nor a string, the buffer gains no [Error] message:
    it holds the [Print] messages of the calls made before the throw and
    nothing else.  The failure reaches the console only, as a
    [console.error] of the value followed by a [console.log] of its
    [typeof]. *)
Theorem C1_opaque_failure_reaches_console_only (st : State) (w : World) (e : JsValue) :
  thrown (wasm_run (runs w) (code st)) = Some e ->
  instanceofError e = None ->
  asString e = None ->
  countType Error (bufferOf st w) = 0 /\
  map text (bufferOf st w) = map Some (printCalls (wasm_run (runs w) (code st))) /\
  console (hostAfter st w) = console w ++ [ConsoleError e; ConsoleLog (typeof e)].
Proof.
  intros Hthrow Hinst Hstr.
  assert (Hop : errorText e = None) by (unfold errorText; now rewrite Hinst).
  unfold bufferOf, hostAfter. rewrite (runBuffer_opaque _ _ _ Hthrow Hop); simpl.
  split; [|split].
  - apply countType_Error_prints, printMessages_type.
  - apply printMessages_text.
  - reflexivity.
Qed.

(** C2, as the code has it. No run puts more than one [Error] message in
    its buffer.  When the runtime throws after N calls of the callback, the
    buffer starts with the N [Print] messages of those calls, in call
    order; when the thrown value is an [Error] instance or a string, exactly
    one [Error] message follows them and nothing follows it; when it is
    anything else, nothing follows them. *)
Theorem C2_failure_buffer_shape (st : State) (w : World) :
  countType Error (bufferOf st w) <= 1 /\
  forall e, thrown (wasm_run (runs w) (code st)) = Some e ->
    exists prints,
      length prints = length (printCalls (wasm_run (runs w) (code st))) /\
      Forall (fun m => type m = Print) prints /\
      map text prints = map Some (printCalls (wasm_run (runs w) (code st))) /\
      (forall s, e = JsErrorObject s \/ e = JsString s ->
         exists m, type m = Error /\ bufferOf st w = prints ++ [m]) /\
      (instanceofError e = None -> asString e = None -> bufferOf st w = prints).
Proof.
  set (r := wasm_run (runs w) (code st)).
  assert (Hshape : forall e, thrown r = Some e ->
            exists prints,
              length prints = length (printCalls r) /\
              Forall (fun m => type m = Print) prints /\
              map text prints = map Some (printCalls r) /\
              (forall s, errorText e = Some s ->
                 exists m, type m = Error /\ bufferOf st w = prints ++ [m]) /\
              (errorText e = None -> bufferOf st w = prints)).
  { intros e Hthrow.
    exists (printMessages (uuids w) (dates w) (printCalls r)).
    repeat split.
    - apply printMessages_length.
    - apply printMessages_type.
    - apply printMessages_text.
    - intros s Hs. unfold bufferOf.
      rewrite (runBuffer_reported _ _ _ _ Hthrow Hs); simpl.
      eexists; split; [|reflexivity]. reflexivity.
    - intros Hop. unfold bufferOf.
      now rewrite (runBuffer_opaque _ _ _ Hthrow Hop). }
  split.
  - destruct (thrown r) as [e|] eqn:Hthrow.
    + destruct (Hshape e eq_refl) as (prints & _ & Hty & _ & Hrep & Hop).
      destruct (errorText e) as [s|] eqn:Htext.
      * destruct (Hrep s eq_refl) as (m & Hm & ->).
        rewrite countType_app, (countType_Error_prints _ Hty).
        unfold countType; simpl. rewrite Hm; simpl. lia.
      * rewrite (Hop eq_refl), (countType_Error_prints _ Hty). lia.
    + rewrite (bufferOf_returns _ _ Hthrow).
      rewrite countType_Error_prints by apply printMessages_type. lia.
  - intros e Hthrow.
    destruct (Hshape e Hthrow) as (prints & Hlen & Hty & Htx & Hrep & Hop).
    exists prints. repeat split; try assumption.
    + intros s Hs. apply (Hrep s). now apply errorText_cases.
    + intros Hinst Hstr. apply Hop. unfold errorText. now rewrite Hinst.
Qed.

(** ** The session log *)

Lemma runCode_unfold st w :
  runCode st w = (setMessages (messages st ++ bufferOf st w) st, hostAfter st w).
Proof.
  unfold runCode, bind, ret, bufferOf, hostAfter.
  now destruct (runBuffer st w).
Qed.

Lemma dispatch_ClickRun c w :
  dispatch ClickRun c w =
  ({| rendered := rendered c;
      held := setMessages (messages (rendered c) ++ bufferOf (rendered c) w)
                (held c) |},
   hostAfter (rendered c) w).
Proof.
  unfold dispatch, bind, ret, bufferOf, hostAfter.
  now destruct (runBuffer (rendered c) w).
Qed.

Lemma session_unfold evs st w :
  session evs st w
  = (held (fst (play evs (fresh st) w)), snd (play evs (fresh st) w)).
Proof.
  unfold session, bind, ret. now destruct (play evs (fresh st) w).
Qed.

Lemma play_cons ev evs c w :
  play (ev :: evs) c w
  = play evs (fst (dispatch ev c w)) (snd (dispatch ev c w)).
Proof.
  simpl. unfold bind. now destruct (dispatch ev c w).
Qed.



Lemma play_runs_keep_code evs : forall c w,
  Forall (fun ev => ev = ClickRun \/ ev = Rerender) evs ->
  code (held (fst (play evs c w))) = code (held c).
Proof.
  induction evs as [|ev evs IH]; intros c w Hall.
  - reflexivity.
  - inversion Hall as [|? ? Hev Hall']; subst. rewrite play_cons, IH by assumption.
    destruct Hev as [-> | ->].
    + now rewrite dispatch_ClickRun.
    + reflexivity.
Qed.

(** C6. A run leaves the source text as it found it, whether the runtime
    returns or throws; so does any number of runs, with or without
    re-renders between them. *)
Theorem C6_run_leaves_source_unchanged (st : State) (w : World) :
  code (fst (runCode st w)) = code st /\
  forall evs,
    Forall (fun ev => ev = ClickRun \/ ev = Rerender) evs ->
    code (fst (session evs st w)) = code st.
Proof.
  split.
  - now rewrite runCode_unfold.
  - intros evs Hall. rewrite session_unfold; simpl.
    now rewrite play_runs_keep_code.
Qed.

Lemma bufferOf_text_defined st w :
  Forall (fun m => exists s, text m = Some s) (bufferOf st w).
Proof.
  assert (Hprints : forall u d ps,
             Forall (fun m => exists s, text m = Some s) (printMessages u d ps)).
  { intros u d ps; revert u d.
    induction ps as [|p ps IH]; intros u d; simpl; constructor.
    - now eexists.
    - apply IH. }
  unfold bufferOf.
  destruct (thrown (wasm_run (runs w) (code st))) as [e|] eqn:Hthrow.
  - destruct (errorText e) as [s|] eqn:Htext.
    + rewrite (runBuffer_reported _ _ _ _ Hthrow Htext); simpl.
      apply Forall_app; split; [apply Hprints|].
      constructor; [now eexists | constructor].
    + rewrite (runBuffer_opaque _ _ _ Hthrow Htext); simpl. apply Hprints.
  - rewrite (runBuffer_returns _ _ Hthrow); simpl. apply Hprints.
Qed.

(** C10. Every message a run appends to the log carries a text: the
    [text] field is present on each of them, on the [Print] path and on
    both [Error] paths. *)
Theorem C10_appended_messages_carry_text (st : State) (w : World) :
  exists batch,
    messages (fst (runCode st w)) = messages st ++ batch /\
    Forall (fun m => exists s, text m = Some s) batch.
Proof.
  exists (bufferOf st w). split.
  - now rewrite runCode_unfold.
  - apply bufferOf_text_defined.
Qed.

(** ** Identifiers

    Each message takes the next identifier of the source when it is built,
    and a log is made of messages in the order they were built: its
    identifiers are answers of the source to calls taken in increasing
    order. *)

Lemma runBuffer_ids st w :
  exists k,
    map id (bufferOf st w) = map randomUUID (seq (uuids w) k) /\
    uuids (hostAfter st w) = uuids w + k.
Proof.
  unfold bufferOf, hostAfter.
  set (ps := printCalls (wasm_run (runs w) (code st))).
  destruct (thrown (wasm_run (runs w) (code st))) as [e|] eqn:Hthrow.
  - destruct (errorText e) as [s|] eqn:Htext.
    + rewrite (runBuffer_reported _ _ _ _ Hthrow Htext); simpl. fold ps.
      exists (length ps + 1). split; [|lia].
      rewrite map_app, printMessages_id, seq_app, map_app. reflexivity.
    + rewrite (runBuffer_opaque _ _ _ Hthrow Htext); simpl. fold ps.
      exists (length ps). split; [apply printMessages_id | reflexivity].
  - rewrite (runBuffer_returns _ _ Hthrow); simpl. fold ps.
    exists (length ps). split; [apply printMessages_id | reflexivity].
Qed.

Lemma seq_StronglySorted k : forall n, StronglySorted lt (seq n k).
Proof.
  induction k as [|k IH]; intros n; simpl; constructor.
  - apply IH.
  - apply Forall_forall. intros x Hx. apply in_seq in Hx. lia.
Qed.

Lemma StronglySorted_app_lt (l1 l2 : list nat) :
  StronglySorted lt l1 ->
  StronglySorted lt l2 ->
  (forall a b, In a l1 -> In b l2 -> a < b) ->
  StronglySorted lt (l1 ++ l2).
Proof.
  induction l1 as [|x l1 IH]; simpl; intros H1 H2 Hlt; [exact H2|].
  inversion H1 as [|? ? Hs Hx]; subst. constructor.
  - apply IH; auto.
  - apply Forall_app. split; [exact Hx|].
    apply Forall_forall. intros b Hb. apply Hlt; auto.
Qed.

Lemma StronglySorted_lt_NoDup (l : list nat) : StronglySorted lt l -> NoDup l.
Proof.
  induction 1 as [|x l _ IH Hx]; constructor; [|exact IH].
  intros Hin. rewrite Forall_forall in Hx. specialize (Hx x Hin). lia.
Qed.

Lemma StronglySorted_lt_nth (l : list nat) :
  StronglySorted lt l ->
  forall i j a b, i < j ->
    nth_error l i = Some a -> nth_error l j = Some b -> a < b.
Proof.
  induction 1 as [|x l _ IH Hx]; intros i j a b Hij Hi Hj.
  - destruct i; discriminate.
  - destruct j as [|j]; [lia|]. simpl in Hj. destruct i as [|i]; simpl in Hi.
    + injection Hi as <-. rewrite Forall_forall in Hx.
      apply Hx. now apply nth_error_In with j.
    + apply (IH i j); auto. lia.
Qed.

Section DrawnInOrder.

Context {A : Type}.
Variable f : nat -> A.
Variable proj : Message -> A.
Variable counter : World -> nat.

Hypothesis run_draws : forall st w,
  exists k,
    map proj (bufferOf st w) = map f (seq (counter w) k) /\
    counter (hostAfter st w) = counter w + k.

Lemma drawnInOrder_weaken n n' ms :
  n <= n' -> drawnInOrder f proj n ms -> drawnInOrder f proj n' ms.
Proof.
  intros Hle (calls & Hmap & Hsorted & Hbound).
  exists calls. repeat split; auto.
  eapply Forall_impl; [|exact Hbound]. simpl. intros; lia.
Qed.

Lemma drawnInOrder_extend n k ms buf :
  drawnInOrder f proj n ms ->
  map proj buf = map f (seq n k) ->
  drawnInOrder f proj (n + k) (ms ++ buf).
Proof.
  intros (calls & Hmap & Hsorted & Hbound) Hbuf.
  exists (calls ++ seq n k). rewrite Forall_forall in Hbound. repeat split.
  - now rewrite !map_app, Hmap, Hbuf.
  - apply StronglySorted_app_lt; [exact Hsorted | apply seq_StronglySorted |].
    intros a b Ha Hb. apply Hbound in Ha. apply in_seq in Hb. lia.
  - apply Forall_forall. intros x Hx. apply in_app_or in Hx.
    destruct Hx as [Hx|Hx]; [apply Hbound in Hx | apply in_seq in Hx]; lia.
Qed.

Lemma dispatch_drawnInOrder ev c w :
  drawnInOrder f proj (counter w) (messages (rendered c)) ->
  drawnInOrder f proj (counter w) (messages (held c)) ->
  drawnInOrder f proj (counter (snd (dispatch ev c w)))
    (messages (rendered (fst (dispatch ev c w)))) /\
  drawnInOrder f proj (counter (snd (dispatch ev c w)))
    (messages (held (fst (dispatch ev c w)))).
Proof.
  intros Hrendered Hheld.
  destruct ev as [|value|value|]; try (simpl; split; assumption).
  rewrite dispatch_ClickRun; simpl.
  destruct (run_draws (rendered c) w) as (k & Hbuf & ->). split.
  - apply (drawnInOrder_weaken (counter w)); [lia | exact Hrendered].
  - now apply drawnInOrder_extend.
Qed.

Lemma play_drawnInOrder evs : forall c w,
  drawnInOrder f proj (counter w) (messages (rendered c)) ->
  drawnInOrder f proj (counter w) (messages (held c)) ->
  drawnInOrder f proj (counter (snd (play evs c w)))
    (messages (held (fst (play evs c w)))).
Proof.
  induction evs as [|ev evs IH]; intros c w Hrendered Hheld.
  - exact Hheld.
  - rewrite play_cons.
    destruct (dispatch_drawnInOrder ev c w Hrendered Hheld) as [Hr Hh].
    now apply IH.
Qed.

Lemma session_drawnInOrder evs st0 w :
  messages st0 = [] ->
  drawnInOrder f proj (counter (snd (session evs st0 w)))
    (messages (fst (session evs st0 w))).
Proof.
  intros Hempty. rewrite session_unfold; simpl.
  assert (Hinit : drawnInOrder f proj (counter w) (messages st0)).
  { rewrite Hempty. exists []. repeat split; constructor. }
  now apply play_drawnInOrder.
Qed.

End DrawnInOrder.

Lemma mount_log_empty st0 : mount = Some st0 -> messages st0 = [].
Proof.
  unfold mount. destruct examples as [|first rest]; [discriminate|].
  now intros [= <-].
Qed.

(** C5. When the identifier source never answers the same identifier
    twice, any two messages at different positions of the log have
    different identifiers, after any sequence of events since the page was
    loaded. *)
Theorem C5_ids_pairwise_distinct (evs : list Event) (st0 : State)
    (i j : nat) (mi mj : Message) :
  (forall a b, randomUUID a = randomUUID b -> a = b) ->
  mount = Some st0 ->
  nth_error (messages (fst (session evs st0 world0))) i = Some mi ->
  nth_error (messages (fst (session evs st0 world0))) j = Some mj ->
  i <> j ->
  id mi <> id mj.
Proof.
  intros Hinj Hmount Hi Hj Hneq Heq. apply Hneq.
  pose proof (session_drawnInOrder randomUUID id uuids runBuffer_ids
                evs st0 world0 (mount_log_empty _ Hmount)) as Hinv.
  set (lg := messages (fst (session evs st0 world0))) in *.
  assert (Hnd : NoDup (map id lg)).
  { destruct Hinv as (calls & -> & Hsorted & _).
    apply Injective_map_NoDup; [exact Hinj|].
    now apply StronglySorted_lt_NoDup. }
  rewrite NoDup_nth_error in Hnd. apply Hnd.
  - rewrite length_map. apply nth_error_Some. now rewrite Hi.
  - rewrite !nth_error_map, Hi, Hj; simpl. now rewrite Heq.
Qed.

(** ** The source buffer *)

Lemma find_first_occurrence (value : string) (pre post : list Example) (e : Example) :
  name e = value ->
  (forall e', In e' pre -> name e' <> value) ->
  find (fun example => String.eqb (name example) value) (pre ++ e :: post) = Some e.
Proof.
  intros Hname. induction pre as [|p pre IH]; intros Hpre; simpl.
  - now rewrite Hname, String.eqb_refl.
  - destruct (String.eqb_spec (name p) value) as [Hp|_].
    + exfalso. apply (Hpre p); [now left | exact Hp].
    + apply IH. intros e' He'. apply Hpre. now right.
Qed.

(** C8. Selecting an entry of the catalog by its name (the first entry
    that bears the name) sets the source text to that entry's code,
    whatever the text was before, and leaves the log as it was.  At load
    the source text is the code of the first entry of the catalog. *)
Theorem C8_select_replaces_source (st : State) (pre post : list Example)
    (e first : Example) :
  examples = pre ++ e :: post ->
  (forall e', In e' pre -> name e' <> name e) ->
  hd_error examples = Some first ->
  onSelectChange (name e) st = {| messages := messages st; code := code_of e |} /\
  mount = Some {| messages := []; code := code_of first |}.
Proof.
  intros Hcat Hfirst Hhd. split.
  - unfold onSelectChange, findExample, setCode. rewrite Hcat.
    now rewrite (find_first_occurrence (name e) pre post e eq_refl Hfirst).
  - unfold mount. destruct examples as [|x rest]; [discriminate|].
    now injection Hhd as ->.
Qed.

(** C9. When the editor delivers [undefined], the source text becomes the
    empty string; the log is left as it was. *)
Theorem C9_undefined_edit_clears_source (st : State) (w : World) :
  LoxEditor_onChange onEditorChange None st = {| messages := messages st; code := "" |} /\
  code (fst (step (EditorChange None) st w)) = "".
Proof.
  split; reflexivity.
Qed.

(** ** What a run draws from the host *)

Lemma printMessages_occurredAt u d ps :
  map occurredAt (printMessages u d ps) = map now (seq d (length ps)).
Proof.
  revert u d; induction ps as [|s ps IH]; intros u d; simpl; [reflexivity|].
  now rewrite IH.
Qed.

Lemma runBuffer_host st w :
  exists k,
    length (bufferOf st w) = k /\
    map occurredAt (bufferOf st w) = map now (seq (dates w) k) /\
    uuids (hostAfter st w) = uuids w + k /\
    dates (hostAfter st w) = dates w + k /\
    runs (hostAfter st w) = S (runs w).
Proof.
  unfold bufferOf, hostAfter.
  set (ps := printCalls (wasm_run (runs w) (code st))).
  destruct (thrown (wasm_run (runs w) (code st))) as [e|] eqn:Hthrow.
  - destruct (errorText e) as [s|] eqn:Htext.
    + rewrite (runBuffer_reported _ _ _ _ Hthrow Htext); simpl. fold ps.
      exists (length ps + 1). repeat split; try lia.
      * now rewrite length_app, printMessages_length.
      * rewrite map_app, printMessages_occurredAt, seq_app, map_app. reflexivity.
    + rewrite (runBuffer_opaque _ _ _ Hthrow Htext); simpl. fold ps.
      exists (length ps). repeat split.
      * apply printMessages_length.
      * apply printMessages_occurredAt.
  - rewrite (runBuffer_returns _ _ Hthrow); simpl. fold ps.
    exists (length ps). repeat split.
    + apply printMessages_length.
    + apply printMessages_occurredAt.
Qed.

Lemma runBuffer_dates st w :
  exists k,
    map occurredAt (bufferOf st w) = map now (seq (dates w) k) /\
    dates (hostAfter st w) = dates w + k.
Proof.
  destruct (runBuffer_host st w) as (k & _ & Hdates & _ & Hd & _).
  now exists k.
Qed.

Lemma play_runs evs : forall c w,
  runs (snd (play evs c w)) = runs w + length (filter isClickRun evs).
Proof.
  induction evs as [|ev evs IH]; intros c w.
  - simpl. lia.
  - rewrite play_cons, IH.
    destruct ev as [|value|value|]; [|simpl; lia..].
    rewrite dispatch_ClickRun. cbn [snd filter isClickRun length].
    destruct (runBuffer_host (rendered c) w) as (k & _ & _ & _ & _ & ->). lia.
Qed.

(** X1. From the call of the runtime to the call of [setMessages], a run
    draws one identifier and one date for each message of its buffer and
    no other.  A selection, an edit and a re-render leave the host as it
    is.  Over any sequence of events the runtime is invoked once for each
    click on Run, with or without a re-render between the clicks, and by
    nothing else. *)
Theorem session_host_accounting (evs : list Event) (st : State) (w : World) :
  uuids (hostAfter st w) = uuids w + length (bufferOf st w) /\
  dates (hostAfter st w) = dates w + length (bufferOf st w) /\
  (forall ev c, isClickRun ev = false -> snd (dispatch ev c w) = w) /\
  runs (snd (session evs st w)) = runs w + length (filter isClickRun evs).
Proof.
  destruct (runBuffer_host st w) as (k & Hlen & _ & Hu & Hd & _).
  repeat split.
  - now rewrite Hu, Hlen.
  - now rewrite Hd, Hlen.
  - intros ev c Hev. destruct ev; [discriminate| | |]; reflexivity.
  - rewrite session_unfold; simpl. apply play_runs.
Qed.

(** X2. When the clock never goes back, the timestamps of the log never
    go back either: after any sequence of events since the page was
    loaded, a message is not older than any message before it, within a
    run and across runs. *)
Theorem log_timestamps_nondecreasing (evs : list Event) (st0 : State)
    (i j : nat) (mi mj : Message) :
  (forall a b, a <= b -> (now a <= now b)%Z) ->
  mount = Some st0 ->
  nth_error (messages (fst (session evs st0 world0))) i = Some mi ->
  nth_error (messages (fst (session evs st0 world0))) j = Some mj ->
  i <= j ->
  (occurredAt mi <= occurredAt mj)%Z.
Proof.
  intros Hmono Hmount Hi Hj Hle.
  pose proof (session_drawnInOrder now occurredAt dates runBuffer_dates
                evs st0 world0 (mount_log_empty _ Hmount)) as Hinv.
  set (lg := messages (fst (session evs st0 world0))) in *.
  destruct Hinv as (calls & Hmap & Hsorted & _).
  assert (Hat : forall k m, nth_error lg k = Some m ->
            exists a, nth_error calls k = Some a /\ occurredAt m = now a).
  { intros k m Hk.
    assert (Hk' : nth_error (map occurredAt lg) k = Some (occurredAt m))
      by now rewrite nth_error_map, Hk.
    rewrite Hmap, nth_error_map in Hk'.
    destruct (nth_error calls k) as [a|]; [|discriminate].
    exists a. split; [reflexivity|]. simpl in Hk'. now injection Hk'. }
  destruct (Hat _ _ Hi) as (a & Ha & ->).
  destruct (Hat _ _ Hj) as (b & Hb & ->).
  apply Hmono.
  destruct (Nat.eq_dec i j) as [<-|Hneq].
  - rewrite Ha in Hb. injection Hb as <-. lia.
  - assert (a < b) by (apply (StronglySorted_lt_nth calls Hsorted i j); auto; lia).
    lia.
Qed.

(** X3. A run writes to the console only when the runtime throws: when it
    returns, the console is left as it was; when it throws an [Error]
    instance or a string, the console gains one [console.error] of the
    thrown value and nothing else. *)
Theorem run_console_only_on_failure (st : State) (w : World) :
  (thrown (wasm_run (runs w) (code st)) = None ->
   console (hostAfter st w) = console w) /\
  (forall e s, thrown (wasm_run (runs w) (code st)) = Some e ->
     e = JsErrorObject s \/ e = JsString s ->
     console (hostAfter st w) = console w ++ [ConsoleError e]).
Proof.
  unfold hostAfter. split.
  - intros Hret. now rewrite (runBuffer_returns _ _ Hret).
  - intros e s Hthrow Hshape. apply errorText_cases in Hshape.
    now rewrite (runBuffer_reported _ _ _ _ Hthrow Hshape).
Qed.

(** X4. The kinds and texts of a run's messages depend on nothing but
    what the runtime does: two runs in which the runtime behaves the same
    give buffers with the same sequence of kinds and the same sequence of
    texts, whatever the log, the identifiers and the clock are. *)
Theorem same_behaviour_same_kinds_and_texts (st1 st2 : State) (w1 w2 : World) :
  wasm_run (runs w1) (code st1) = wasm_run (runs w2) (code st2) ->
  map type (bufferOf st1 w1) = map type (bufferOf st2 w2) /\
  map text (bufferOf st1 w1) = map text (bufferOf st2 w2).
Proof.
  intros Hsame.
  assert (Hty : forall u d u' d' ps,
             map type (printMessages u d ps) = map type (printMessages u' d' ps)).
  { intros u d u' d' ps; revert u d u' d'.
    induction ps as [|p ps IH]; intros u d u' d'; simpl; [reflexivity|].
    f_equal. apply IH. }
  unfold bufferOf.
  destruct (thrown (wasm_run (runs w1) (code st1))) as [e|] eqn:Hthrow1;
    pose proof Hthrow1 as Hthrow2; rewrite Hsame in Hthrow2.
  - destruct (errorText e) as [s|] eqn:Htext.
    + rewrite (runBuffer_reported _ _ _ _ Hthrow1 Htext),
        (runBuffer_reported _ _ _ _ Hthrow2 Htext); simpl.
      rewrite !map_app, !printMessages_text, Hsame; simpl. split; [|reflexivity].
      f_equal. apply Hty.
    + rewrite (runBuffer_opaque _ _ _ Hthrow1 Htext),
        (runBuffer_opaque _ _ _ Hthrow2 Htext); simpl.
      rewrite !printMessages_text, Hsame. split; [apply Hty | reflexivity].
  - rewrite (runBuffer_returns _ _ Hthrow1), (runBuffer_returns _ _ Hthrow2); simpl.
    rewrite !printMessages_text, Hsame. split; [apply Hty | reflexivity].
Qed.

(** ** The selector *)

Lemma findExample_none value :
  (forall e, In e examples -> name e <> value) -> findExample value = None.
Proof.
  unfold findExample. induction examples as [|x rest IH]; intros Hno; simpl.
  - reflexivity.
  - destruct (String.eqb_spec (name x) value) as [Hx|_].
    + exfalso. apply (Hno x); [now left | exact Hx].
    + apply IH. intros e He. apply Hno. now right.
Qed.

Lemma findExample_some value e :
  findExample value = Some e -> In e examples /\ name e = value.
Proof.
  unfold findExample. intros Hfind. apply find_some in Hfind.
  destruct Hfind as [Hin Heq]. split; [exact Hin|].
  now apply String.eqb_eq.
Qed.

(** X5. Selecting a value that is the name of no entry of the catalog
    (on an empty catalog, any value) sets the source text to the empty
    string and leaves the log as it was. *)
Theorem select_unknown_name_clears_source (value : string) (st : State) :
  (forall e, In e examples -> name e <> value) ->
  onSelectChange value st = {| messages := messages st; code := "" |}.
Proof.
  intros Hno. unfold onSelectChange. now rewrite (findExample_none _ Hno).
Qed.

(** X6. The values the selector offers are the names of the catalog, in
    catalog order, and each of them finds an entry: choosing an offered
    option sets the source text to the code of an entry of the catalog
    with that name, never to the fallback. *)
Theorem offered_option_selects_an_entry (o : OptionElement) (st : State) :
  In o renderOptions ->
  map optionValue renderOptions = map name examples /\
  exists e, In e examples /\ name e = optionValue o /\
            onSelectChange (optionValue o) st
            = {| messages := messages st; code := code_of e |}.
Proof.
  intros Ho. split.
  - unfold renderOptions. rewrite map_map. reflexivity.
  - unfold renderOptions in Ho. apply in_map_iff in Ho.
    destruct Ho as (x & <- & Hx); simpl.
    destruct (findExample (name x)) as [e|] eqn:Hfind.
    + destruct (findExample_some _ _ Hfind) as [Hin Hname].
      exists e. repeat split; try assumption.
      unfold onSelectChange. now rewrite Hfind.
    + exfalso. unfold findExample in Hfind.
      apply (find_none _ _ Hfind) in Hx. now rewrite String.eqb_refl in Hx.
Qed.

(** X7. At load the selector and the source text agree: the value the
    selector shows by default is the name of the first entry, and
    selecting it gives back the state the component was mounted with, also
    when another entry bears the same name. *)
Theorem default_selection_agrees_with_mount (st0 : State) (value : string) :
  mount = Some st0 ->
  defaultValue = Some value ->
  hd_error (map optionValue renderOptions) = Some value /\
  onSelectChange value st0 = st0.
Proof.
  unfold mount, defaultValue, onSelectChange, findExample, renderOptions.
  destruct examples as [|first rest]; [discriminate|].
  intros [= <-] [= <-]. simpl. now rewrite String.eqb_refl.
Qed.

(** ** The output pane *)

Lemma isRed_renderMessage m : isRed (renderMessage m) = isError m.
Proof.
  unfold isRed, renderMessage, isError; simpl.
  now destruct (type m).
Qed.

Lemma red_rows_count ms :
  length (filter isRed (map renderMessage ms)) = countType Error ms.
Proof.
  unfold countType. induction ms as [|m ms IH]; simpl; [reflexivity|].
  rewrite isRed_renderMessage. unfold isError.
  destruct (MessageType_eqb (type m) Error); simpl; now rewrite IH.
Qed.

(** X8. A run leaves the rows already shown as they are and adds the rows
    of its buffer below them; among the added rows exactly those of
    [Error] messages are red, so a run adds at most one red row, and none
    when the runtime returns. *)
Theorem run_adds_rows_below (st : State) (w : World) :
  renderMessages (fst (runCode st w))
  = renderMessages st ++ map renderMessage (bufferOf st w) /\
  length (filter isRed (map renderMessage (bufferOf st w)))
  = countType Error (bufferOf st w) /\
  length (filter isRed (map renderMessage (bufferOf st w))) <= 1 /\
  (thrown (wasm_run (runs w) (code st)) = None ->
   filter isRed (map renderMessage (bufferOf st w)) = []).
Proof.
  assert (Hprints : forall u d ps,
             countType Error (printMessages u d ps) = 0)
    by (intros; apply countType_Error_prints, printMessages_type).
  split; [|split; [|split]].
  - unfold renderMessages. rewrite runCode_unfold; simpl. apply map_app.
  - apply red_rows_count.
  - rewrite red_rows_count. unfold bufferOf.
    destruct (thrown (wasm_run (runs w) (code st))) as [e|] eqn:Hthrow.
    + destruct (errorText e) as [s|] eqn:Htext.
      * rewrite (runBuffer_reported _ _ _ _ Hthrow Htext); simpl.
        rewrite countType_app, Hprints. unfold countType; simpl. lia.
      * rewrite (runBuffer_opaque _ _ _ Hthrow Htext); simpl.
        rewrite Hprints. lia.
    + rewrite (runBuffer_returns _ _ Hthrow); simpl. rewrite Hprints. lia.
  - intros Hret. apply length_zero_iff_nil.
    rewrite red_rows_count, (bufferOf_returns _ _ Hret). apply Hprints.
Qed.

End Playground.

(** * The properties on concrete hosts *)

Lemma unaryUUID_injective (a b : nat) : unaryUUID a = unaryUUID b -> a = b.
Proof.
  revert b; induction a as [|a IH]; intros [|b]; simpl; try discriminate.
  - reflexivity.
  - intros [= H]. f_equal. now apply IH.
Qed.

(** Scenario A: two prints and a normal return give two [Print] messages. *)
Lemma C3_witness_two_prints :
  thrown (printsTwice (runs world0) (code demoState)) = None /\
  (countType Error (bufferOf unaryUUID epochClock printsTwice demoState world0) = 0 /\
   Forall (fun m => type m = Print)
     (bufferOf unaryUUID epochClock printsTwice demoState world0) /\
   map text (bufferOf unaryUUID epochClock printsTwice demoState world0)
   = map Some (printCalls (printsTwice (runs world0) (code demoState)))).
Proof.
  split; [reflexivity|].
  apply (C3_success_buffer_is_the_prints unaryUUID epochClock printsTwice
           demoState world0).
  reflexivity.
Defined.

(** Scenarios B and C: an [Error] instance and a bare string. *)
Lemma C7_witness_error_and_string :
  (exists m, filter isError (bufferOf unaryUUID epochClock throwsError demoState world0) = [m]
             /\ text m = Some "Undefined variable 'x'.") /\
  (exists m, filter isError (bufferOf unaryUUID epochClock throwsString demoState world0) = [m]
             /\ text m = Some "stack overflow").
Proof.
  split.
  - apply (C7_error_text_is_verbatim unaryUUID epochClock throwsError
             demoState world0 (JsErrorObject "Undefined variable 'x'.")).
    + reflexivity.
    + left; reflexivity.
  - apply (C7_error_text_is_verbatim unaryUUID epochClock throwsString
             demoState world0 (JsString "stack overflow")).
    + reflexivity.
    + right; reflexivity.
Defined.

(** Scenario D on the code: a thrown number. *)
Lemma C1_witness_thrown_number :
  countType Error (bufferOf unaryUUID epochClock throwsNumber demoState world0) = 0 /\
  map text (bufferOf unaryUUID epochClock throwsNumber demoState world0) = [Some "a"] /\
  console (hostAfter unaryUUID epochClock throwsNumber demoState world0)
  = [ConsoleError (JsNumber 42); ConsoleLog "number"].
Proof.
  apply (C1_opaque_failure_reaches_console_only unaryUUID epochClock throwsNumber
           demoState world0 (JsNumber 42)); reflexivity.
Defined.

(** C1 as stated fails: the runtime prints once and throws the number 42,
    which is neither an [Error] instance nor a string, and the buffer of
    the run holds no [Error] message at all. *)
Lemma C1_counterexample_thrown_number :
  thrown (throwsNumber (runs world0) (code demoState)) = Some (JsNumber 42) /\
  instanceofError (JsNumber 42) = None /\
  asString (JsNumber 42) = None /\
  ~ (exists m, In m (bufferOf unaryUUID epochClock throwsNumber demoState world0)
               /\ type m = Error).
Proof.
  repeat split.
  intros (m & Hin & Hty). vm_compute in Hin.
  destruct Hin as [<- | []]. discriminate Hty.
Qed.

Lemma C2_witness_thrown_error :
  exists prints,
    length prints = 1 /\
    Forall (fun m => type m = Print) prints /\
    map text prints = [Some "a"] /\
    (forall s, JsErrorObject "Undefined variable 'x'." = JsErrorObject s
               \/ JsErrorObject "Undefined variable 'x'." = JsString s ->
       exists m, type m = Error /\
         bufferOf unaryUUID epochClock throwsError demoState world0 = prints ++ [m]) /\
    (instanceofError (JsErrorObject "Undefined variable 'x'.") = None ->
     asString (JsErrorObject "Undefined variable 'x'.") = None ->
     bufferOf unaryUUID epochClock throwsError demoState world0 = prints).
Proof.
  apply (proj2 (C2_failure_buffer_shape unaryUUID epochClock throwsError
                  demoState world0)).
  reflexivity.
Defined.

(** C2 as stated fails on the same run: one call of the callback, then a
    thrown number; the buffer is the one [Print] message, with no [Error]
    message behind it. *)
Lemma C2_counterexample_thrown_number :
  thrown (throwsNumber (runs world0) (code demoState)) = Some (JsNumber 42) /\
  length (printCalls (throwsNumber (runs world0) (code demoState))) = 1 /\
  ~ (exists prints m,
       bufferOf unaryUUID epochClock throwsNumber demoState world0 = prints ++ [m]
       /\ length prints = 1 /\ type m = Error).
Proof.
  repeat split.
  intros (prints & m & Hbuf & Hlen & Hty). vm_compute in Hbuf.
  destruct prints as [|p [|q prints]]; simpl in Hlen, Hbuf; discriminate.
Qed.

(** Two runs with a re-render and an edit in between: the first and the
    last message of the log have different identifiers. *)
Lemma C5_witness_two_runs :
  exists mi mj,
    nth_error (messages (fst (session unaryUUID epochClock printsTwice demoExamples
                                [ClickRun; Rerender; EditorChange None; ClickRun]
                                demoState world0))) 0 = Some mi /\
    nth_error (messages (fst (session unaryUUID epochClock printsTwice demoExamples
                                [ClickRun; Rerender; EditorChange None; ClickRun]
                                demoState world0))) 3 = Some mj /\
    id mi <> id mj.
Proof.
  eexists; eexists. split; [reflexivity|]. split; [reflexivity|].
  apply (C5_ids_pairwise_distinct unaryUUID epochClock printsTwice demoExamples
           [ClickRun; Rerender; EditorChange None; ClickRun] demoState 0 3).
  - exact unaryUUID_injective.
  - reflexivity.
  - reflexivity.
  - reflexivity.
  - lia.
Defined.



(** Runs with and without a re-render between them leave the source text
    alone. *)
Lemma C6_witness_runs_and_renders :
  code (fst (session unaryUUID epochClock throwsError demoExamples
               [ClickRun; ClickRun; Rerender; ClickRun] demoState world0))
  = code demoState.
Proof.
  apply (proj2 (C6_run_leaves_source_unchanged unaryUUID epochClock throwsError
                  demoExamples demoState world0)
           [ClickRun; ClickRun; Rerender; ClickRun]).
  repeat (constructor; [first [left; reflexivity | right; reflexivity]|]).
  constructor.
Defined.

(** C7 as stated fails: the runtime prints once and throws an object
    that has a [message] field and is no instance of [Error]; the buffer
    of the run holds no [Error] message, so none carries that message. *)
Lemma C7_counterexample_message_object :
  thrown (throwsMessageObject (runs world0) (code demoState))
  = Some (JsObjectWithMessage "Undefined variable 'x'.") /\
  messageField (JsObjectWithMessage "Undefined variable 'x'.")
  = Some "Undefined variable 'x'." /\
  ~ (exists m, In m (bufferOf unaryUUID epochClock throwsMessageObject
                       demoState world0)
               /\ type m = Error).
Proof.
  repeat split.
  intros (m & Hin & Hty). vm_compute in Hin.
  destruct Hin as [<- | []]. discriminate Hty.
Qed.

(** The component itself never compares identifiers: on a source that
    repeats itself the log repeats it too. *)
Remark ids_repeat_when_the_source_repeats :
  map id (messages (fst (runCode constantUUID epochClock printsTwice demoState world0)))
  = [constantUUID 0; constantUUID 0].
Proof.
  reflexivity.
Qed.

Lemma C8_witness_fibonacci :
  onSelectChange demoExamples "Fibonacci"
    {| messages := []; code := "unsaved edits" |}
  = {| messages := []; code := "fun fib(n) { return n; }" |} /\
  mount demoExamples = Some {| messages := []; code := "print 1;" |}.
Proof.
  apply (C8_select_replaces_source demoExamples
           {| messages := []; code := "unsaved edits" |}
           [ {| name := "Hello"; code_of := "print 1;" |} ] []
           {| name := "Fibonacci"; code_of := "fun fib(n) { return n; }" |}
           {| name := "Hello"; code_of := "print 1;" |}).
  - reflexivity.
  - intros e' [<- | []]. discriminate.
  - reflexivity.
Defined.

(** * The syntax descriptor: properties *)

(** ** Every match takes what is ahead, and no more *)

Section Loops.

Variable body : Cursor -> (Cursor -> option Cursor) -> option Cursor.

Hypothesis body_sound : forall cur k res,
  body cur k = Some res ->
  exists cur', k cur' = Some res /\
    consumed cur <= consumed cur' /\
    consumed cur' + length (ahead cur') = consumed cur + length (ahead cur).

Lemma greedyLoop_sound fuel : forall cur k res,
  greedyLoop body fuel cur k = Some res ->
  exists cur', k cur' = Some res /\
    consumed cur <= consumed cur' /\
    consumed cur' + length (ahead cur') = consumed cur + length (ahead cur).
Proof.
  induction fuel as [|fuel IH]; intros cur k res; simpl.
  - intros Hk. exists cur. auto.
  - destruct (body cur _) as [res'|] eqn:Hbody.
    + intros [= <-]. apply body_sound in Hbody.
      destruct Hbody as (mid & Hmid & Hle & Hsum).
      destruct (progressed cur mid); [|discriminate].
      apply IH in Hmid. destruct Hmid as (cur' & Hk & Hle' & Hsum').
      exists cur'. repeat split; [assumption | lia | lia].
    + intros Hk. exists cur. auto.
Qed.

Lemma lazyLoop_sound fuel : forall cur k res,
  lazyLoop body fuel cur k = Some res ->
  exists cur', k cur' = Some res /\
    consumed cur <= consumed cur' /\
    consumed cur' + length (ahead cur') = consumed cur + length (ahead cur).
Proof.
  induction fuel as [|fuel IH]; intros cur k res; simpl.
  - intros Hk. exists cur. auto.
  - destruct (k cur) as [res'|] eqn:Hnow.
    + intros [= <-]. exists cur. auto.
    + intros Hbody. apply body_sound in Hbody.
      destruct Hbody as (mid & Hmid & Hle & Hsum).
      destruct (progressed cur mid); [|discriminate].
      apply IH in Hmid. destruct Hmid as (cur' & Hk & Hle' & Hsum').
      exists cur'. repeat split; [assumption | lia | lia].
Qed.

End Loops.

Lemma matchK_sound r : forall cur k res,
  matchK r cur k = Some res ->
  exists cur', k cur' = Some res /\
    consumed cur <= consumed cur' /\
    consumed cur' + length (ahead cur') = consumed cur + length (ahead cur) /\
    (nullable r = false -> consumed cur < consumed cur').
Proof.
  induction r as [|p|r1 IH1 r2 IH2|r1 IH1 r2 IH2|r1 IH1|r1 IH1|r1 IH1| |];
    intros cur k res; simpl.
  - intros Hk. exists cur. repeat split; auto; discriminate.
  - destruct (ahead cur) as [|c tail] eqn:Hahead; [discriminate|].
    destruct (p c); [|discriminate].
    intros Hk. exists (advance c cur tail). simpl. repeat split; auto; lia.
  - intros H. apply IH1 in H. destruct H as (mid & Hmid & Hle & Hsum & Hn1).
    apply IH2 in Hmid. destruct Hmid as (cur' & Hk & Hle' & Hsum' & Hn2).
    exists cur'. repeat split; [assumption | lia | lia |].
    intros Hnull. apply andb_false_iff in Hnull. destruct Hnull as [H1|H2].
    + specialize (Hn1 H1). lia.
    + specialize (Hn2 H2). lia.
  - destruct (matchK r1 cur k) as [res'|] eqn:Hleft.
    + intros [= <-]. apply IH1 in Hleft.
      destruct Hleft as (cur' & Hk & Hle & Hsum & Hn).
      exists cur'. repeat split; try assumption.
      intros Hnull. apply orb_false_iff in Hnull. now apply Hn.
    + intros Hright. apply IH2 in Hright.
      destruct Hright as (cur' & Hk & Hle & Hsum & Hn).
      exists cur'. repeat split; try assumption.
      intros Hnull. apply orb_false_iff in Hnull. now apply Hn.
  - destruct (matchK r1 cur _) as [res'|] eqn:Hin.
    + intros [= <-]. apply IH1 in Hin.
      destruct Hin as (cur' & Hk & Hle & Hsum & _).
      destruct (progressed cur cur'); [|discriminate].
      exists cur'. repeat split; try assumption. discriminate.
    + intros Hk. exists cur. repeat split; auto; discriminate.
  - intros H. apply greedyLoop_sound in H.
    + destruct H as (cur' & Hk & Hle & Hsum).
      exists cur'. repeat split; try assumption. discriminate.
    + intros c0 k0 res0 H0. apply IH1 in H0.
      destruct H0 as (cur' & Hk & Hle & Hsum & _). exists cur'. auto.
  - intros H. apply lazyLoop_sound in H.
    + destruct H as (cur' & Hk & Hle & Hsum).
      exists cur'. repeat split; try assumption. discriminate.
    + intros c0 k0 res0 H0. apply IH1 in H0.
      destruct H0 as (cur' & Hk & Hle & Hsum & _). exists cur'. auto.
  - destruct (xorb _ _); [|discriminate].
    intros Hk. exists cur. repeat split; auto; discriminate.
  - destruct (ahead cur) as [|c tail] eqn:Hahead; [|discriminate].
    intros Hk. exists cur. rewrite Hahead. repeat split; auto; discriminate.
Qed.

Lemma matchAt_bounds r prev input n :
  matchAt r prev input = Some n ->
  n <= length input /\ (nullable r = false -> 1 <= n).
Proof.
  unfold matchAt.
  destruct (matchK r _ Some) as [res|] eqn:Hm; [|discriminate].
  intros [= <-]. apply matchK_sound in Hm.
  destruct Hm as (cur' & [= ->] & Hle & Hsum & Hn). simpl in *.
  split; [lia|]. intros Hnull. specialize (Hn Hnull). lia.
Qed.

(** X9. No rule of the tokenizer can match the empty string: wherever a
    rule matches, after any code unit and with any text ahead, its match
    is at least one code unit long and no longer than the text ahead. *)
Theorem every_rule_makes_progress (r : Regex) (token : string)
    (prev : option N) (input : list N) (n : nat) :
  In (r, token) root ->
  matchAt r prev input = Some n ->
  1 <= n <= length input.
Proof.
  intros Hin Hm. apply matchAt_bounds in Hm. destruct Hm as [Hle Hpos].
  split; [|exact Hle]. apply Hpos.
  unfold root in Hin; simpl in Hin.
  repeat (destruct Hin as [[= <- _] | Hin]; [reflexivity|]).
  destruct Hin.
Qed.

(** ** Keywords and the words that start like one *)

(** X10. Each of the sixteen keywords, when it stands at the start of a
    line and is followed by the end of the line or by a code unit that is
    no word character, is classified [keyword] over its whole length. *)
Theorem keyword_is_classified_keyword (kw : string) (rest : list N) :
  In kw keywords ->
  (forall c tail, rest = c :: tail -> isWordChar c = false) ->
  tokenAtLineStart (units kw ++ rest) = Some ("keyword", String.length kw).
Proof.
  intros Hin Hrest. unfold keywords in Hin; simpl in Hin.
  destruct rest as [|c tail].
  - repeat (destruct Hin as [<- | Hin]; [vm_compute; reflexivity|]).
    destruct Hin.
  - specialize (Hrest c tail eq_refl).
    repeat (destruct Hin as [<- | Hin];
            [unfold tokenAtLineStart, root, firstMatch, matchAt, keywordRegex;
             cbn -[isWordChar]; rewrite Hrest; reflexivity|]).
    destruct Hin.
Qed.

(** X11. The operator rule's [and] and [or] are reached: at the start of
    a line, a word that begins with [and] or with [or] and goes on with a
    word character (an identifier such as [android] or [order]) is not
    classified as one identifier; its first token is the operator [and],
    three code units long, or the operator [or], two code units long. *)
Theorem word_starting_with_and_or_is_split (c : N) (rest : list N) :
  isWordChar c = true ->
  tokenAtLineStart (units "and" ++ c :: rest) = Some ("operator", 3) /\
  tokenAtLineStart (units "or" ++ c :: rest) = Some ("operator", 2).
Proof.
  intros Hc.
  split; unfold tokenAtLineStart, root, firstMatch, matchAt, keywordRegex;
    cbn -[isWordChar]; rewrite Hc; reflexivity.
Qed.

(** ** Repetitions of one character class *)

Lemma consumed_advanceOver xs : forall cur tail,
  consumed (advanceOver cur xs tail) = consumed cur + length xs.
Proof.
  induction xs as [|c xs IH]; intros cur tail; simpl.
  - lia.
  - rewrite IH. simpl. lia.
Qed.

Lemma advanceOver_nil cur tail :
  ahead cur = tail -> advanceOver cur [] tail = cur.
Proof.
  intros <-. now destruct cur.
Qed.

Lemma progressed_advance c cur tail : progressed cur (advance c cur tail) = true.
Proof.
  unfold progressed, advance; simpl. apply Nat.ltb_lt. lia.
Qed.

Lemma greedy_class_all p xs : forall fuel cur tail k res,
  ahead cur = xs ++ tail ->
  length xs <= fuel ->
  Forall (fun c => p c = true) xs ->
  (forall c t, tail = c :: t -> p c = false) ->
  k (advanceOver cur xs tail) = Some res ->
  greedyLoop (matchK (Class p)) fuel cur k = Some res.
Proof.
  induction xs as [|c xs IH]; intros fuel cur tail k res Hahead Hfuel Hall Hstop Hk.
  - simpl in Hahead. rewrite (advanceOver_nil _ _ Hahead) in Hk.
    destruct fuel as [|fuel]; simpl; [exact Hk|].
    rewrite Hahead. destruct tail as [|c t]; [exact Hk|].
    now rewrite (Hstop c t eq_refl).
  - destruct fuel as [|fuel]; simpl in Hfuel; [lia|].
    inversion Hall as [|? ? Hc Hall']; subst.
    assert (Hrec : greedyLoop (matchK (Class p)) fuel
                     (advance c cur (xs ++ tail)) k = Some res)
      by (apply (IH fuel _ tail); auto; lia).
    cbn [greedyLoop].
    match goal with
    | |- match ?round with _ => _ end = _ =>
        assert (Hround : round = Some res); [|now rewrite Hround]
    end.
    cbn [app] in Hahead. cbn [matchK]. rewrite Hahead. cbv beta iota.
    rewrite Hc, progressed_advance. exact Hrec.
Qed.

Lemma lazy_class_until p q xs : forall fuel cur tail k res,
  ahead cur = xs ++ tail ->
  length xs <= fuel ->
  Forall (fun c => p c = true /\ q c = false) xs ->
  matchK (Class q) (advanceOver cur xs tail) k = Some res ->
  lazyLoop (matchK (Class p)) fuel cur (fun cur' => matchK (Class q) cur' k)
  = Some res.
Proof.
  induction xs as [|c xs IH]; intros fuel cur tail k res Hahead Hfuel Hall Hk.
  - simpl in Hahead. rewrite (advanceOver_nil _ _ Hahead) in Hk.
    destruct fuel as [|fuel]; cbn [lazyLoop]; [exact Hk|]. now rewrite Hk.
  - destruct fuel as [|fuel]; simpl in Hfuel; [lia|].
    inversion Hall as [|? ? [Hp Hq] Hall']; subst.
    cbn [lazyLoop matchK]. rewrite Hahead; simpl. rewrite Hq, Hp, progressed_advance.
    apply (IH fuel (advance c cur (xs ++ tail)) tail k res); auto. lia.
Qed.

Lemma lazy_class_never p q fuel : forall xs cur k,
  ahead cur = xs ->
  Forall (fun c => q c = false) xs ->
  lazyLoop (matchK (Class p)) fuel cur (fun cur' => matchK (Class q) cur' k)
  = None.
Proof.
  induction fuel as [|fuel IH]; intros xs cur k Hahead Hall;
    cbn [lazyLoop matchK]; rewrite Hahead.
  - destruct Hall as [|c xs Hq _]; [reflexivity|]. now rewrite Hq.
  - destruct Hall as [|c xs Hq Hall]; [reflexivity|]. rewrite Hq.
    destruct (p c); [|reflexivity]. rewrite progressed_advance.
    now apply (IH xs).
Qed.

Lemma ahead_advanceOver xs : forall cur tail,
  ahead (advanceOver cur xs tail) = tail.
Proof.
  induction xs as [|c xs IH]; intros cur tail; simpl; [reflexivity | apply IH].
Qed.

(** ** Rules that cannot start with a given code unit *)

Lemma keyword_needs_lowercase c tail :
  inRange (codeUnit "a") (codeUnit "z") c = false ->
  matchAt keywordRegex None (c :: tail) = None.
Proof.
  intros Hc. unfold matchAt, keywordRegex.
  cbn -[isWordChar inRange N.eqb].
  destruct (isWordChar c); [|reflexivity]. cbn -[N.eqb].
  repeat match goal with
         | |- context [N.eqb ?x c] =>
             destruct (N.eqb_spec x c) as [Heq|_];
             [rewrite <- Heq in Hc; discriminate Hc|]
         end.
  reflexivity.
Qed.

Lemma string_needs_quote c tail :
  N.eqb (codeUnit doubleQuote) c = false ->
  matchAt stringRegex None (c :: tail) = None.
Proof.
  intros Hc. unfold matchAt, stringRegex, chr. cbn [matchK ahead].
  now rewrite Hc.
Qed.

Lemma number_needs_digit c tail :
  isDigit c = false -> matchAt numberRegex None (c :: tail) = None.
Proof.
  intros Hc. unfold matchAt, numberRegex, Plus. cbn [matchK ahead].
  now rewrite Hc.
Qed.

Lemma comment_needs_slash c tail :
  N.eqb (codeUnit "/") c = false ->
  matchAt commentRegex None (c :: tail) = None.
Proof.
  intros Hc. unfold matchAt, commentRegex, chr. cbn [matchK ahead].
  now rewrite Hc.
Qed.

(** ** Comments, strings and numbers *)

(** X12. A line that starts with two slashes is one [comment] token from
    its first code unit to its last, whatever follows the slashes on the
    line. *)
Theorem comment_runs_to_end_of_line (body : list N) :
  Forall (fun c => isDot c = true) body ->
  tokenAtLineStart (units "//" ++ body) = Some ("comment", 2 + length body).
Proof.
  intros Hbody. unfold tokenAtLineStart, root. cbn [firstMatch].
  change (units "//" ++ body) with (47%N :: 47%N :: body).
  rewrite keyword_needs_lowercase, string_needs_quote, number_needs_digit
    by reflexivity.
  unfold matchAt, commentRegex. cbn -[greedyLoop isDot].
  match goal with
  | |- context [greedyLoop ?b ?f ?cur ?k] =>
      assert (Hloop : greedyLoop b f cur k = Some (advanceOver cur body []))
  end.
  { apply (greedy_class_all isDot body _ _ []); auto.
    - simpl. now rewrite app_nil_r.
    - discriminate.
    - now rewrite ahead_advanceOver. }
  rewrite Hloop. cbn [option_map]. rewrite consumed_advanceOver. reflexivity.
Qed.

(** X13. A string token ends at the first double quote after the opening
    one: when the text between the two holds no double quote and no line
    terminator, the token is that text and its two quotes, whatever comes
    after the closing quote and whatever stands before it, a backslash
    included. *)
Theorem string_ends_at_first_quote (body rest : list N) :
  Forall (fun c => isDot c = true /\ N.eqb (codeUnit doubleQuote) c = false) body ->
  tokenAtLineStart (codeUnit doubleQuote :: body ++ codeUnit doubleQuote :: rest)
  = Some ("string", length body + 2).
Proof.
  intros Hbody. unfold tokenAtLineStart, root. cbn [firstMatch].
  change (codeUnit doubleQuote) with 34%N.
  rewrite keyword_needs_lowercase by reflexivity.
  unfold matchAt, stringRegex, chr. cbn -[lazyLoop isDot N.eqb].
  change (34 =? 34)%N with true. cbv iota.
  match goal with
  | |- context [lazyLoop ?b ?f ?cur ?k] =>
      assert (Hloop : lazyLoop b f cur k
                      = Some (advance 34 (advanceOver cur body (34%N :: rest)) rest))
  end.
  { apply (lazy_class_until isDot (N.eqb 34) body _ _ (34%N :: rest)); auto.
    - rewrite length_app. simpl. lia.
    - cbn [matchK]. rewrite ahead_advanceOver. reflexivity. }
  rewrite Hloop. cbn [option_map advance consumed].
  rewrite consumed_advanceOver. simpl. f_equal. f_equal. lia.
Qed.

(** X14. A double quote that is not closed on its line starts no token:
    when no further double quote follows it, no rule of the tokenizer
    matches at the start of the line. *)
Theorem unterminated_string_matches_no_rule (body : list N) :
  Forall (fun c => N.eqb (codeUnit doubleQuote) c = false) body ->
  tokenAtLineStart (codeUnit doubleQuote :: body) = None.
Proof.
  intros Hbody. unfold tokenAtLineStart, root. cbn [firstMatch].
  change (codeUnit doubleQuote) with 34%N.
  rewrite keyword_needs_lowercase by reflexivity.
  assert (Hstring : matchAt stringRegex None (34%N :: body) = None).
  { unfold matchAt, stringRegex, chr. cbn -[lazyLoop isDot N.eqb].
    change (34 =? 34)%N with true. cbv iota.
    match goal with
    | |- context [lazyLoop ?b ?f ?cur ?k] =>
        assert (Hloop : lazyLoop b f cur k = None)
    end.
    { apply (lazy_class_never isDot (N.eqb 34) _ body); auto. }
    now rewrite Hloop. }
  rewrite Hstring, number_needs_digit, comment_needs_slash by reflexivity.
  reflexivity.
Qed.

Lemma digit_is_no_lowercase d :
  isDigit d = true -> inRange (codeUnit "a") (codeUnit "z") d = false.
Proof.
  unfold isDigit, inRange. cbn [codeUnit N_of_ascii N_of_digits].
  intros H. apply andb_true_iff in H. destruct H as [_ H].
  apply N.leb_le in H. apply andb_false_iff. left. apply N.leb_gt.
  cbn in *. lia.
Qed.

Lemma digit_is_no_quote d :
  isDigit d = true -> N.eqb (codeUnit doubleQuote) d = false.
Proof.
  unfold isDigit, inRange. intros H. apply andb_true_iff in H.
  destruct H as [H _]. apply N.leb_le in H. apply N.eqb_neq.
  cbn in *. lia.
Qed.

Lemma fraction_absent cur :
  (forall c t, ahead cur = codeUnit "." :: c :: t -> isDigit c = false) ->
  matchK (Opt (Seq (chr ".") (Plus (Class isDigit)))) cur Some = Some cur.
Proof.
  intros Hno. unfold chr, Plus. cbn [matchK].
  destruct (ahead cur) as [|c [|c2 t]] eqn:Hahead; try reflexivity.
  - now destruct (N.eqb (codeUnit ".") c).
  - destruct (N.eqb_spec (codeUnit ".") c) as [<-|_]; [|reflexivity].
    cbn [ahead advance]. now rewrite (Hno c2 t eq_refl).
Qed.

(** X15. A run of digits at the start of a line is one [number] token as
    long as the run: a dot after it belongs to the token only when a digit
    follows the dot, so a trailing dot is left out. *)
Theorem integer_is_one_number (d : N) (ds rest : list N) :
  isDigit d = true ->
  Forall (fun c => isDigit c = true) ds ->
  (forall c t, rest = c :: t -> isDigit c = false) ->
  (forall c t, rest = codeUnit "." :: c :: t -> isDigit c = false) ->
  tokenAtLineStart (d :: ds ++ rest) = Some ("number", S (length ds)).
Proof.
  intros Hd Hds Hstop Hfrac. unfold tokenAtLineStart, root. cbn [firstMatch].
  rewrite keyword_needs_lowercase by now apply digit_is_no_lowercase.
  rewrite string_needs_quote by now apply digit_is_no_quote.
  unfold matchAt, numberRegex, Plus. cbn [matchK ahead]. rewrite Hd.
  match goal with
  | |- context [greedyLoop ?b ?f ?cur ?k] =>
      assert (Hloop : greedyLoop b f cur k = Some (advanceOver cur ds rest))
  end.
  { apply (greedy_class_all isDigit ds _ _ rest); auto.
    - cbn [ahead advance]. rewrite length_app. lia.
    - apply (fraction_absent (advanceOver _ ds rest)).
      rewrite ahead_advanceOver. exact Hfrac. }
  rewrite Hloop. cbn [option_map]. rewrite consumed_advanceOver. reflexivity.
Qed.

(** X16. Digits, a dot and more digits at the start of a line are one
    [number] token that takes them all; it stops before a second dot. *)
Theorem decimal_is_one_number (d f : N) (ds fs rest : list N) :
  isDigit d = true ->
  Forall (fun c => isDigit c = true) ds ->
  isDigit f = true ->
  Forall (fun c => isDigit c = true) fs ->
  (forall c t, rest = c :: t -> isDigit c = false) ->
  tokenAtLineStart (d :: ds ++ codeUnit "." :: f :: fs ++ rest)
  = Some ("number", length ds + length fs + 3).
Proof.
  intros Hd Hds Hf Hfs Hstop. unfold tokenAtLineStart, root. cbn [firstMatch].
  rewrite keyword_needs_lowercase by now apply digit_is_no_lowercase.
  rewrite string_needs_quote by now apply digit_is_no_quote.
  unfold matchAt, numberRegex, Plus. cbn [matchK ahead]. rewrite Hd.
  set (tail := codeUnit "." :: f :: fs ++ rest).
  match goal with
  | |- context [greedyLoop ?b ?fu ?cur ?k] =>
      assert (Hloop : greedyLoop b fu cur k
                      = Some (advanceOver
                                (advance f (advance (codeUnit ".")
                                              (advanceOver cur ds tail)
                                              (f :: fs ++ rest))
                                   (fs ++ rest))
                                fs rest))
  end.
  { apply (greedy_class_all isDigit ds _ _ tail); auto.
    - cbn [ahead advance]. rewrite length_app. lia.
    - intros c t [= <- _]. reflexivity.
    - unfold chr. cbn [matchK]. rewrite ahead_advanceOver. unfold tail.
      cbv iota. rewrite N.eqb_refl. cbn [ahead advance]. rewrite Hf.
      match goal with
      | |- context [greedyLoop ?b ?fu ?cur ?k] =>
          assert (Hin : greedyLoop b fu cur k = Some (advanceOver cur fs rest))
      end.
      { apply (greedy_class_all isDigit fs _ _ rest); auto.
        - cbn [ahead advance]. rewrite length_app. lia.
        - unfold progressed.
          match goal with
          | |- (if ?b then _ else _) = _ => assert (Hb : b = true)
          end.
          { apply Nat.ltb_lt. rewrite !consumed_advanceOver.
            cbn [consumed advance]. rewrite consumed_advanceOver. lia. }
          now rewrite Hb. }
      now rewrite Hin. }
  rewrite Hloop. cbn [option_map]. rewrite consumed_advanceOver.
  cbn [consumed advance]. rewrite consumed_advanceOver. cbn [consumed advance].
  f_equal. f_equal. lia.
Qed.

(** ** Identifiers *)

Lemma lit_inv s : forall cur k res,
  matchK (lit s) cur k = Some res ->
  exists tl, ahead cur = units s ++ tl /\
             k (advanceOver cur (units s) tl) = Some res.
Proof.
  induction s as [|a s IH]; intros cur k res; cbn [lit matchK].
  - intros Hk. exists (ahead cur). split; [reflexivity|].
    now rewrite advanceOver_nil.
  - unfold chr. cbn [matchK].
    destruct (ahead cur) as [|c tail] eqn:Hahead; [discriminate|].
    destruct (N.eqb_spec (codeUnit a) c) as [<-|_]; [|discriminate].
    intros Hrest. apply IH in Hrest. destruct Hrest as (tl & Htail & Hk).
    cbn [ahead advance] in Htail. subst tail.
    exists tl. split; [reflexivity | exact Hk].
Qed.

Lemma oneOf_inv others : forall first cur k res,
  matchK (oneOf first others) cur k = Some res ->
  exists kw tl, In kw (first :: others) /\
                ahead cur = units kw ++ tl /\
                k (advanceOver cur (units kw) tl) = Some res.
Proof.
  induction others as [|next others IH]; intros first cur k res; cbn [oneOf].
  - intros H. apply lit_inv in H. destruct H as (tl & Hahead & Hk).
    exists first, tl. repeat split; auto. now left.
  - cbn [matchK]. destruct (matchK (lit first) cur k) as [res'|] eqn:Hfirst.
    + intros [= <-]. apply lit_inv in Hfirst.
      destruct Hfirst as (tl & Hahead & Hk).
      exists first, tl. repeat split; auto. now left.
    + intros H. apply IH in H. destruct H as (kw & tl & Hin & Hahead & Hk).
      exists kw, tl. repeat split; auto. now right.
Qed.

Lemma keyword_rule_inv input n :
  matchAt keywordRegex None input = Some n ->
  exists kw tl, In kw keywords /\ input = units kw ++ tl /\
                (forall c t, tl = c :: t -> isWordChar c = false).
Proof.
  unfold matchAt, keywordRegex. cbn [matchK].
  destruct (xorb _ _); [|discriminate].
  destruct (matchK (oneOf _ _) _ _) as [res|] eqn:Hm; [|discriminate].
  intros _. apply oneOf_inv in Hm.
  destruct Hm as (kw & tl & Hin & Hahead & Hk).
  cbn [ahead] in Hahead. exists kw, tl. repeat split; auto.
  intros c t ->.
  cbn [matchK] in Hk. unfold wordAhead in Hk. rewrite ahead_advanceOver in Hk.
  destruct (isWordChar c); [|reflexivity].
  exfalso. revert Hk. simpl in Hin.
  repeat (destruct Hin as [<- | Hin]; [vm_compute; discriminate|]).
  destruct Hin.
Qed.

Lemma word_prefix_unique xs : forall ys r1 r2,
  Forall (fun c => isWordChar c = true) xs ->
  Forall (fun c => isWordChar c = true) ys ->
  (forall c t, r1 = c :: t -> isWordChar c = false) ->
  (forall c t, r2 = c :: t -> isWordChar c = false) ->
  xs ++ r1 = ys ++ r2 ->
  xs = ys.
Proof.
  induction xs as [|x xs IH]; intros ys r1 r2 Hxs Hys H1 H2 Heq.
  - destruct ys as [|y ys]; [reflexivity|]. simpl in Heq.
    inversion Hys as [|? ? Hy _]; subst.
    rewrite (H1 y (ys ++ r2) eq_refl) in Hy. discriminate.
  - inversion Hxs as [|? ? Hx Hxs']; subst.
    destruct ys as [|y ys]; simpl in Heq.
    + rewrite (H2 x (xs ++ r1) (eq_sym Heq)) in Hx. discriminate.
    + injection Heq as -> Heq. inversion Hys; subst.
      f_equal. now apply (IH ys r1 r2).
Qed.

Lemma keywords_are_words kw :
  In kw keywords -> Forall (fun c => isWordChar c = true) (units kw).
Proof.
  intros Hin. simpl in Hin.
  repeat (destruct Hin as [<- | Hin];
          [repeat constructor|]).
  destruct Hin.
Qed.

Ltac char_range :=
  unfold isIdentifierStart, isWordChar, isDigit, isOperatorChar, inRange in *;
  cbn [existsb units list_ascii_of_string map] in *;
  repeat first [ rewrite orb_true_iff in * | rewrite andb_true_iff in *
               | rewrite orb_false_iff in * | rewrite andb_false_iff in *
               | rewrite N.leb_le in * | rewrite N.leb_gt in *
               | rewrite N.eqb_eq in * | rewrite N.eqb_neq in * ];
  cbn in *; lia.

Lemma identifier_start_is_word c :
  isIdentifierStart c = true -> isWordChar c = true.
Proof. intros H. char_range. Qed.

Lemma identifier_start_is_no_digit c :
  isIdentifierStart c = true -> isDigit c = false.
Proof. intros H. char_range. Qed.

Lemma identifier_start_is_no_operator c :
  isIdentifierStart c = true -> isOperatorChar c = false.
Proof. intros H. char_range. Qed.

Lemma identifier_start_is_no_quote c :
  isIdentifierStart c = true -> N.eqb (codeUnit doubleQuote) c = false.
Proof. intros H. char_range. Qed.

Lemma identifier_start_is_no_slash c :
  isIdentifierStart c = true -> N.eqb (codeUnit "/") c = false.
Proof. intros H. char_range. Qed.

Lemma word_has_prefix (pre : list N) : forall word rest tl,
  Forall (fun x => isWordChar x = true) pre ->
  (forall x t, rest = x :: t -> isWordChar x = false) ->
  word ++ rest = pre ++ tl ->
  exists tl', word = pre ++ tl'.
Proof.
  induction pre as [|p pre IH]; intros word rest tl Hpre Hstop Heq.
  - exists word. reflexivity.
  - inversion Hpre as [|? ? Hp Hpre']; subst.
    destruct word as [|x word]; simpl in Heq.
    + rewrite (Hstop p (pre ++ tl) Heq) in Hp. discriminate.
    + injection Heq as -> Heq.
      destruct (IH word rest tl Hpre' Hstop Heq) as [tl' ->].
      now exists tl'.
Qed.

(** X17. A word at the start of a line (a letter or an underscore, then
    letters, digits and underscores, up to the end of the line or a code
    unit that is none of these) is one [identifier] token over its whole
    length, provided it is not a keyword and does not begin with [and] or
    with [or]. *)
Theorem identifier_is_one_token (c : N) (cs rest : list N) :
  isIdentifierStart c = true ->
  Forall (fun x => isWordChar x = true) cs ->
  (forall x t, rest = x :: t -> isWordChar x = false) ->
  (forall kw, In kw keywords -> c :: cs <> units kw) ->
  (forall tl, c :: cs <> units "and" ++ tl) ->
  (forall tl, c :: cs <> units "or" ++ tl) ->
  tokenAtLineStart (c :: cs ++ rest) = Some ("identifier", S (length cs)).
Proof.
  intros Hc Hcs Hstop Hkw Hand Hor.
  unfold tokenAtLineStart, root. cbn [firstMatch].
  assert (Hword : Forall (fun x => isWordChar x = true) (c :: cs))
    by (constructor; [now apply identifier_start_is_word | exact Hcs]).
  destruct (matchAt keywordRegex None (c :: cs ++ rest)) as [n|] eqn:Hkeyword.
  { exfalso. apply keyword_rule_inv in Hkeyword.
    destruct Hkeyword as (kw & tl & Hin & Heq & Htl).
    apply (Hkw kw Hin).
    apply (word_prefix_unique (c :: cs) (units kw) rest tl); auto.
    now apply keywords_are_words. }
  rewrite string_needs_quote by now apply identifier_start_is_no_quote.
  rewrite number_needs_digit by now apply identifier_start_is_no_digit.
  rewrite comment_needs_slash by now apply identifier_start_is_no_slash.
  assert (Hoperator : matchAt operatorRegex None (c :: cs ++ rest) = None).
  { unfold matchAt, operatorRegex. cbn [matchK ahead].
    rewrite (identifier_start_is_no_operator _ Hc).
    destruct (matchK (lit "and") _ Some) as [res|] eqn:Hm.
    { exfalso. apply lit_inv in Hm. destruct Hm as (tl & Heq & _).
      cbn [ahead] in Heq.
      destruct (word_has_prefix (units "and") (c :: cs) rest tl) as [tl' Hpre];
        auto; [repeat constructor | now apply (Hand tl')]. }
    destruct (matchK (lit "or") _ Some) as [res|] eqn:Hm2; [|reflexivity].
    exfalso. apply lit_inv in Hm2. destruct Hm2 as (tl & Heq & _).
    cbn [ahead] in Heq.
    destruct (word_has_prefix (units "or") (c :: cs) rest tl) as [tl' Hpre];
      auto; [repeat constructor | now apply (Hor tl')]. }
  rewrite Hoperator.
  unfold matchAt, identifierRegex. cbn [matchK ahead]. rewrite Hc.
  match goal with
  | |- context [greedyLoop ?b ?f ?cur ?k] =>
      assert (Hloop : greedyLoop b f cur k = Some (advanceOver cur cs rest))
  end.
  { apply (greedy_class_all isWordChar cs _ _ rest); auto.
    cbn [ahead advance]. rewrite length_app. lia. }
  rewrite Hloop. cbn [option_map]. rewrite consumed_advanceOver. reflexivity.
Qed.

(** ** Operators *)

(** X18. An operator character that is followed by [=] forms one
    [operator] token of two code units with it: not only [==], [!=], [<=]
    and [>=], but [+=], [-=], [*=] and [/=] as well. *)
Theorem operator_takes_following_equals (c : N) (rest : list N) :
  isOperatorChar c = true ->
  tokenAtLineStart (c :: codeUnit "=" :: rest) = Some ("operator", 2).
Proof.
  intros Hc. unfold isOperatorChar in Hc. cbn [existsb units list_ascii_of_string map] in Hc.
  repeat (apply orb_true_iff in Hc; destruct Hc as [Hc|Hc];
          [apply N.eqb_eq in Hc; subst c; reflexivity|]).
  discriminate Hc.
Qed.

(** ** The tokenizer and the language configuration *)

(** X19. The tokenizer and the bracket configuration agree: a code unit
    is classified [delimiter] exactly when it opens or closes one of the
    configured bracket pairs, and every bracket pair is also closed
    automatically. *)
Theorem delimiters_are_the_brackets (c : N) :
  (matchAt delimiterRegex None [c] = Some 1 <->
   exists pair, In pair (brackets loxConfiguration) /\
                (units (fst pair) = [c] \/ units (snd pair) = [c])) /\
  incl (brackets loxConfiguration) (autoClosingPairs loxConfiguration).
Proof.
  split.
  - split.
    + unfold matchAt, delimiterRegex. cbn [matchK ahead].
      destruct (isDelimiterChar c) eqn:Hc; [|discriminate]. intros _.
      unfold isDelimiterChar in Hc.
      cbn [existsb units list_ascii_of_string map] in Hc.
      repeat rewrite orb_true_iff in Hc. rewrite !N.eqb_eq in Hc.
      destruct Hc as [-> | [-> | [-> | [-> | Hc]]]]; [| | | |discriminate].
      * exists ("{", "}"). split; [now left | now left].
      * exists ("{", "}"). split; [now left | now right].
      * exists ("(", ")"). split; [right; now left | now left].
      * exists ("(", ")"). split; [right; now left | now right].
    + intros (pair & Hin & Hc). simpl in Hin.
      destruct Hin as [<- | [<- | []]]; destruct Hc as [[= <-] | [= <-]];
        reflexivity.
  - intros pair Hin. simpl in Hin |- *. tauto.
Qed.

(** * The further properties on concrete inputs *)

Lemma epochClock_monotone (a b : nat) : a <= b -> (epochClock a <= epochClock b)%Z.
Proof.
  unfold epochClock. lia.
Qed.

Lemma timestamps_witness_two_runs :
  exists mi mj,
    nth_error (messages (fst (session unaryUUID epochClock printsTwice demoExamples
                                [ClickRun; Rerender; SelectChange "Fibonacci"; ClickRun]
                                demoState world0))) 1 = Some mi /\
    nth_error (messages (fst (session unaryUUID epochClock printsTwice demoExamples
                                [ClickRun; Rerender; SelectChange "Fibonacci"; ClickRun]
                                demoState world0))) 2 = Some mj /\
    (occurredAt mi <= occurredAt mj)%Z.
Proof.
  eexists; eexists. split; [reflexivity|]. split; [reflexivity|].
  apply (log_timestamps_nondecreasing unaryUUID epochClock printsTwice demoExamples
           [ClickRun; Rerender; SelectChange "Fibonacci"; ClickRun] demoState 1 2).
  - exact epochClock_monotone.
  - reflexivity.
  - reflexivity.
  - reflexivity.
  - lia.
Defined.

Lemma accounting_witness_selection :
  snd (dispatch unaryUUID epochClock printsTwice demoExamples
         (SelectChange "Fibonacci") (fresh demoState) world0) = world0.
Proof.
  apply (proj1 (proj2 (proj2 (session_host_accounting unaryUUID epochClock
                                printsTwice demoExamples
                                [ClickRun; ClickRun] demoState world0)))
           (SelectChange "Fibonacci") (fresh demoState)).
  reflexivity.
Defined.

Lemma console_witness_thrown_string :
  console (hostAfter unaryUUID epochClock throwsString demoState world0)
  = console world0 ++ [ConsoleError (JsString "stack overflow")].
Proof.
  apply (proj2 (run_console_only_on_failure unaryUUID epochClock throwsString
                  demoState world0)
           (JsString "stack overflow") "stack overflow").
  - reflexivity.
  - right; reflexivity.
Defined.

Lemma same_behaviour_witness_two_states :
  map type (bufferOf unaryUUID epochClock throwsError demoState world0)
  = map type (bufferOf unaryUUID epochClock throwsError
                {| messages := []; code := "print 2;" |}
                {| uuids := 7; dates := 9; runs := 3; console := [] |}) /\
  map text (bufferOf unaryUUID epochClock throwsError demoState world0)
  = map text (bufferOf unaryUUID epochClock throwsError
                {| messages := []; code := "print 2;" |}
                {| uuids := 7; dates := 9; runs := 3; console := [] |}).
Proof.
  apply (same_behaviour_same_kinds_and_texts unaryUUID epochClock throwsError
           demoState {| messages := []; code := "print 2;" |} world0
           {| uuids := 7; dates := 9; runs := 3; console := [] |}).
  reflexivity.
Defined.

Lemma select_unknown_witness :
  onSelectChange demoExamples "Sieve" demoState = {| messages := []; code := "" |}.
Proof.
  apply (select_unknown_name_clears_source demoExamples "Sieve" demoState).
  intros e [<- | [<- | []]]; discriminate.
Defined.

Lemma offered_option_witness :
  map optionValue (renderOptions demoExamples) = map name demoExamples /\
  exists e, In e demoExamples /\ name e = "Fibonacci" /\
            onSelectChange demoExamples "Fibonacci" demoState
            = {| messages := messages demoState; code := code_of e |}.
Proof.
  apply (offered_option_selects_an_entry demoExamples
           {| optionKey := "Fibonacci"; optionValue := "Fibonacci";
              optionLabel := "Fibonacci" |} demoState).
  right; left; reflexivity.
Defined.

Lemma default_selection_witness :
  hd_error (map optionValue (renderOptions demoExamples)) = Some "Hello" /\
  onSelectChange demoExamples "Hello" demoState = demoState.
Proof.
  apply (default_selection_agrees_with_mount demoExamples demoState "Hello");
    reflexivity.
Defined.

Lemma rows_witness_two_prints :
  filter isRed (map renderMessage
                  (bufferOf unaryUUID epochClock printsTwice demoState world0)) = [].
Proof.
  apply (proj2 (proj2 (proj2 (run_adds_rows_below unaryUUID epochClock printsTwice
                                demoState world0)))).
  reflexivity.
Defined.

Lemma progress_witness_number :
  1 <= 2 <= length (units "12.").
Proof.
  apply (every_rule_makes_progress numberRegex "number" None (units "12.") 2).
  - right; right; left; reflexivity.
  - reflexivity.
Defined.

Lemma keyword_witness_while :
  tokenAtLineStart (units "while (x)") = Some ("keyword", 5).
Proof.
  apply (keyword_is_classified_keyword "while" (units " (x)")).
  - repeat (try (left; reflexivity); right).
  - intros c tail [= <- _]. reflexivity.
Defined.

Lemma split_witness_android :
  tokenAtLineStart (units "android") = Some ("operator", 3) /\
  tokenAtLineStart (units "order") = Some ("operator", 2).
Proof.
  split.
  - apply (proj1 (word_starting_with_and_or_is_split (codeUnit "r") (units "oid")
                    eq_refl)).
  - apply (proj2 (word_starting_with_and_or_is_split (codeUnit "d") (units "er")
                    eq_refl)).
Defined.

Lemma comment_witness :
  tokenAtLineStart (units "// hi") = Some ("comment", 5).
Proof.
  apply (comment_runs_to_end_of_line (units " hi")).
  repeat constructor.
Defined.

(** A quote, [a], a backslash, a quote, [b], a quote: the token ends at
    the quote that follows the backslash. *)
Lemma string_witness_escaped_quote :
  tokenAtLineStart (codeUnit doubleQuote :: [codeUnit "a"; 92%N]
                      ++ codeUnit doubleQuote
                      :: units "b" ++ [codeUnit doubleQuote])
  = Some ("string", 4).
Proof.
  apply (string_ends_at_first_quote [codeUnit "a"; 92%N]
           (units "b" ++ [codeUnit doubleQuote])).
  repeat constructor.
Defined.

Lemma unterminated_witness :
  tokenAtLineStart (codeUnit doubleQuote :: units "abc;") = None.
Proof.
  apply (unterminated_string_matches_no_rule (units "abc;")).
  repeat constructor.
Defined.

Lemma integer_witness_trailing_dot :
  tokenAtLineStart (units "12.") = Some ("number", 2).
Proof.
  apply (integer_is_one_number (codeUnit "1") (units "2") (units ".")).
  - reflexivity.
  - repeat constructor.
  - intros c t [= <- _]. reflexivity.
  - intros c t [=].
Defined.

Lemma decimal_witness_second_dot :
  tokenAtLineStart (units "12.50.3") = Some ("number", 5).
Proof.
  apply (decimal_is_one_number (codeUnit "1") (codeUnit "5")
           (units "2") (units "0") (units ".3")).
  - reflexivity.
  - repeat constructor.
  - reflexivity.
  - repeat constructor.
  - intros c t [= <- _]. reflexivity.
Defined.

Lemma identifier_witness_classy :
  tokenAtLineStart (units "classy = 1;") = Some ("identifier", 6).
Proof.
  apply (identifier_is_one_token (codeUnit "c") (units "lassy") (units " = 1;")).
  - reflexivity.
  - repeat constructor.
  - intros x t [= <- _]. reflexivity.
  - intros kw Hin. simpl in Hin.
    repeat (destruct Hin as [<- | Hin]; [discriminate|]). destruct Hin.
  - intros tl. discriminate.
  - intros tl. discriminate.
Defined.

Lemma operator_witness_plus_equals :
  tokenAtLineStart (units "+= 1") = Some ("operator", 2).
Proof.
  apply (operator_takes_following_equals (codeUnit "+") (units " 1")).
  reflexivity.
Defined.
